(** * Black and Bachelier formulas, and the accessors of the piecewise yield curve

    A shallow embedding of [ql/pricingengines/blackformula.cpp] and of the
    inline accessors of [PiecewiseYieldCurve].

    The C++ type [Real] is read as the field of real numbers.  An
    operation whose IEEE result is an infinity or a NaN (division by zero,
    logarithm of a non-positive number, square root of a negative number)
    is not given a real value: the call has the outcome [NonFinite], and
    the model does not follow the infinity that the C++ code may carry on
    to a finite result.  Rounding, underflow and overflow are outside this
    reading; the theorems over the reals are stated so that what they say
    about the kind of an outcome (a value, or which error) does not rest
    on the sign of a rounding error, and the values they give are the
    values of the program up to rounding.  Where a check of the code can
    fail through rounding or overflow alone, [blackFormula] is embedded a
    second time over the binary64 format (module [Binary64]).

    The first part holds the definitions that embed the sources, the
    second and third parts the theorems. *)

From Stdlib Require Import Floats.
From Stdlib Require Import Reals Lra Lia ZArith List Bool.
Import ListNotations.
Open Scope R_scope.

(** * Part 1: the embedding *)

(** ** The integral of a continuous function *)

Section ContinuousIntegral.

Variable f : R -> R.
Hypothesis f_cont : forall x, continuity_pt f x.

Lemma cont_integrable (a b : R) : Riemann_integrable f a b.
Proof.
  destruct (Rle_dec a b) as [H | H].
  - apply continuity_implies_RiemannInt; [exact H |].
    intros x _. apply f_cont.
  - apply RiemannInt_P1. apply continuity_implies_RiemannInt; [lra |].
    intros x _. apply f_cont.
Qed.

Definition integral (a b : R) : R := RiemannInt (cont_integrable a b).

End ContinuousIntegral.

(** ** The Gaussian weight and its primitive *)

Definition gauss (x : R) : R := exp (- (x * x) / 2).

Lemma gauss_continuity (x : R) : continuity_pt gauss x.
Proof.
  revert x. change (continuity gauss). unfold gauss. reg.
Qed.

(** [gauss_int x] is the integral of the weight from 0 to [x]. *)
Definition gauss_int (x : R) : R := integral gauss gauss_continuity 0 x.

(** ** CumulativeNormalDistribution *)

(** Modelled from the spec: [CumulativeNormalDistribution] lives in
    [ql/math/distributions/normaldistribution.hpp], which is not part of
    the sources at hand.  Following section 4.1, [value] is the standard
    normal distribution function and [derivative] its density,
    [exp (- x^2 / 2) / sqrt (2 pi)]; the distribution function is one half
    plus the integral of the density from 0 to [x]. *)
Module CumulativeNormalDistribution.

Definition derivative (x : R) : R := gauss x / sqrt (2 * PI).

Definition value (x : R) : R := / 2 + gauss_int x / sqrt (2 * PI).

End CumulativeNormalDistribution.

Module CND := CumulativeNormalDistribution.

(** ** Outcomes of a call *)

(** A call returns a value, leaves without one, or meets a floating-point
    infinity or NaN on the way, which no real number describes; the model
    does not follow a computation past that point. *)
Inductive Failure : Set :=
| RequireFailed   (* QL_REQUIRE: a precondition on the arguments does not hold *)
| EnsureFailed    (* QL_ENSURE: a postcondition on the result does not hold *)
| Failed          (* QL_FAIL, raised by a collaborator *)
| Undefined.      (* the language leaves the behaviour undefined *)

Inductive outcome (A : Type) : Type :=
| Returns (a : A)
| Throws (e : Failure)
| NonFinite.

Arguments Returns {A} a.
Arguments Throws {A} e.
Arguments NonFinite {A}.

Definition bind {A B : Type} (m : outcome A) (k : A -> outcome B) : outcome B :=
  match m with
  | Returns a => k a
  | Throws e => Throws e
  | NonFinite => NonFinite
  end.

Notation "x <- m ;; k" := (bind m (fun x => k))
  (at level 61, m at next level, right associativity).
Notation "m ;; k" := (bind m (fun _ => k))
  (at level 61, right associativity).

(** Modelled from the spec: the macros [QL_REQUIRE] and [QL_ENSURE] come
    from [ql/errors.hpp], which is not part of the sources at hand.
    Following section 7, the first throws when a condition on the
    arguments fails and the second when a condition on the result fails. *)
Definition QL_REQUIRE {P Q : Prop} (condition : {P} + {Q}) : outcome unit :=
  if condition then Returns tt else Throws RequireFailed.

Definition QL_ENSURE {P Q : Prop} (condition : {P} + {Q}) : outcome unit :=
  if condition then Returns tt else Throws EnsureFailed.

(** Division by a variable, [std::log] and [std::sqrt]: outside the domain
    the IEEE result is an infinity or a NaN. *)
Definition fdiv (x y : R) : outcome R :=
  if Req_dec_T y 0 then NonFinite else Returns (x / y).

Module std.

Definition log (x : R) : outcome R :=
  if Rlt_dec 0 x then Returns (ln x) else NonFinite.

Definition sqrt (x : R) : outcome R :=
  if Rle_dec 0 x then Returns (R_sqrt.sqrt x) else NonFinite.

Definition max (x y : R) : R := Rmax x y.

End std.

Definition M_PI : R := PI.

(** ** Option types *)

(** Modelled from the spec: [Option::Type] is declared in [ql/option.hpp],
    which is not part of the sources at hand.  Following section 3, it is
    the enumeration of call and put, used in the formulas as the factors
    +1 and -1. *)
Inductive OptionType : Set := Call | Put.

Definition typeSign (optionType : OptionType) : R :=
  match optionType with
  | Call => 1
  | Put => -1
  end.

(** ** blackformula.cpp *)

Definition blackFormula (optionType : OptionType)
    (strike forward stdDev discount displacement : R) : outcome R :=
  QL_REQUIRE (Rge_dec strike 0) ;;
  QL_REQUIRE (Rgt_dec forward 0) ;;
  QL_REQUIRE (Rge_dec stdDev 0) ;;
  QL_REQUIRE (Rgt_dec discount 0) ;;
  QL_REQUIRE (Rge_dec displacement 0) ;;
  let forward := forward + displacement in
  let strike := strike + displacement in
  if Req_dec_T stdDev 0 then
    Returns (std.max ((forward - strike) * typeSign optionType) 0 * discount)
  else if Req_dec_T strike 0 then
    Returns (match optionType with Call => forward * discount | Put => 0 end)
  else
    q <- fdiv forward strike ;;
    l <- std.log q ;;
    m <- fdiv l stdDev ;;
    let d1 := m + 0.5 * stdDev in
    let d2 := d1 - stdDev in
    let result := discount * typeSign optionType *
      (forward * CND.value (typeSign optionType * d1)
       - strike * CND.value (typeSign optionType * d2)) in
    QL_ENSURE (Rge_dec result 0) ;;
    Returns result.

Definition blackFormulaImpliedStdDevApproximation (optionType : OptionType)
    (strike forward blackPrice discount displacement : R) : outcome R :=
  QL_REQUIRE (Rge_dec strike 0) ;;
  QL_REQUIRE (Rgt_dec forward 0) ;;
  QL_REQUIRE (Rge_dec blackPrice 0) ;;
  QL_REQUIRE (Rgt_dec discount 0) ;;
  QL_REQUIRE (Rge_dec displacement 0) ;;
  let forward := forward + displacement in
  let strike := strike + displacement in
  stdDev <-
    (if Req_dec_T strike forward then
       (* Brenner-Subrahmanyan (1988) and Feinstein (1988) ATM approx. *)
       p <- fdiv blackPrice discount ;;
       fdiv (p * R_sqrt.sqrt (2 * M_PI)) forward
     else
       (* Corrado and Miller extended moneyness approximation *)
       let moneynessDelta := typeSign optionType * (forward - strike) in
       let moneynessDelta_2 := moneynessDelta / 2 in
       p <- fdiv blackPrice discount ;;
       let temp := p - moneynessDelta_2 in
       let moneynessDelta_PI := moneynessDelta * moneynessDelta / M_PI in
       let temp2 := temp * temp - moneynessDelta_PI in
       let temp2 := if Rlt_dec temp2 0 then 0 else temp2 in
       temp2 <- std.sqrt temp2 ;;
       let temp := temp + temp2 in
       let temp := temp * R_sqrt.sqrt (2 * M_PI) in
       fdiv temp (forward + strike)) ;;
  QL_ENSURE (Rge_dec stdDev 0) ;;
  Returns stdDev.

Record BlackImpliedStdDevHelper : Type := {
  halfOptionType_ : R;
  signedStrike_ : R;
  signedForward_ : R;
  undiscountedBlackPrice_ : R;
  signedMoneyness_ : R
}.

Module Helper.

(** The constructor; [displacement] defaults to 0 at the call site. *)
Definition make (optionType : OptionType)
    (strike forward undiscountedBlackPrice displacement : R)
    : outcome BlackImpliedStdDevHelper :=
  QL_REQUIRE (Rge_dec strike 0) ;;
  QL_REQUIRE (Rgt_dec forward 0) ;;
  QL_REQUIRE (Rge_dec undiscountedBlackPrice 0) ;;
  q <- fdiv (forward + displacement) (strike + displacement) ;;
  l <- std.log q ;;
  Returns {| halfOptionType_ := 0.5 * typeSign optionType;
             signedStrike_ := typeSign optionType * (strike + displacement);
             signedForward_ := typeSign optionType * (forward + displacement);
             undiscountedBlackPrice_ := undiscountedBlackPrice;
             signedMoneyness_ := typeSign optionType * l |}.

(** [operator()] *)
Definition call (f : BlackImpliedStdDevHelper) (stdDev : R) : outcome R :=
  if Req_dec_T stdDev 0 then
    Returns (std.max (signedForward_ f - signedStrike_ f) 0
             - undiscountedBlackPrice_ f)
  else
    let temp := halfOptionType_ f * stdDev in
    d <- fdiv (signedMoneyness_ f) stdDev ;;
    let signedD1 := d + temp in
    let signedD2 := d - temp in
    let result := signedForward_ f * CND.value signedD1
                  - signedStrike_ f * CND.value signedD2 in
    (* numerical inaccuracies can yield a negative answer *)
    Returns (std.max 0 result - undiscountedBlackPrice_ f).

Definition derivative (f : BlackImpliedStdDevHelper) (stdDev : R) : outcome R :=
  d <- fdiv (signedMoneyness_ f) stdDev ;;
  let signedD1 := d + halfOptionType_ f * stdDev in
  Returns (signedForward_ f * CND.derivative signedD1).

End Helper.

(** The one-dimensional solver ([NewtonSafe] of [ql/math/solvers1d]) is a
    collaborator of this file: it receives the evaluation budget, the
    objective with its derivative, the accuracy, the guess and the bracket. *)
Definition Solver1D : Type :=
  nat -> (R -> outcome R) -> (R -> outcome R) -> R -> R -> R -> R -> outcome R.

(** [guess = None] stands for [Null<Real>()]. *)
Definition blackFormulaImpliedStdDev (solver : Solver1D) (optionType : OptionType)
    (strike forward blackPrice discount : R) (guess : option R)
    (accuracy displacement : R) : outcome R :=
  QL_REQUIRE (Rge_dec strike 0) ;;
  QL_REQUIRE (Rgt_dec forward 0) ;;
  QL_REQUIRE (Rge_dec blackPrice 0) ;;
  QL_REQUIRE (Rgt_dec discount 0) ;;
  QL_REQUIRE (Rge_dec displacement 0) ;;
  let strike := strike + displacement in
  let forward := forward + displacement in
  guess <-
    match guess with
    | None => blackFormulaImpliedStdDevApproximation
                optionType strike forward blackPrice discount displacement
    | Some guess => QL_REQUIRE (Rge_dec guess 0) ;; Returns guess
    end ;;
  p <- fdiv blackPrice discount ;;
  f <- Helper.make optionType strike forward p 0 ;;
  let minSdtDev := 0 in
  let maxStdDev := 3 in
  stdDev <- solver 100%nat (Helper.call f) (Helper.derivative f)
                   accuracy guess minSdtDev maxStdDev ;;
  QL_ENSURE (Rge_dec stdDev 0) ;;
  Returns stdDev.

Definition blackFormulaCashItmProbability (optionType : OptionType)
    (strike forward stdDev displacement : R) : outcome R :=
  if Req_dec_T stdDev 0 then
    Returns (if Rgt_dec (forward * typeSign optionType) (strike * typeSign optionType)
             then 1 else 0)
  else if Req_dec_T strike 0 then
    Returns (match optionType with Call => 1 | Put => 0 end)
  else
    q <- fdiv (forward + displacement) (strike + displacement) ;;
    l <- std.log q ;;
    m <- fdiv l stdDev ;;
    let d1 := m + 0.5 * stdDev in
    let d2 := d1 - stdDev in
    Returns (CND.value (typeSign optionType * d2)).

Definition blackFormulaStdDevDerivative
    (strike forward stdDev discount displacement : R) : outcome R :=
  QL_REQUIRE (Rge_dec strike 0) ;;
  QL_REQUIRE (Rgt_dec forward 0) ;;
  QL_REQUIRE (Rge_dec stdDev 0) ;;
  QL_REQUIRE (Rgt_dec discount 0) ;;
  QL_REQUIRE (Rge_dec displacement 0) ;;
  let forward := forward + displacement in
  let strike := strike + displacement in
  q <- fdiv forward strike ;;
  l <- std.log q ;;
  m <- fdiv l stdDev ;;
  let d1 := m + 0.5 * stdDev in
  Returns (discount * forward * CND.derivative d1).

(** Bachelier model.  The quotient [h] is formed before the test on
    [stdDev] and read only after it. *)
Definition bachelierBlackFormula (optionType : OptionType)
    (strike forward stdDev discount : R) : outcome R :=
  QL_REQUIRE (Rge_dec stdDev 0) ;;
  QL_REQUIRE (Rgt_dec discount 0) ;;
  let d := (forward - strike) * typeSign optionType in
  let h := fdiv d stdDev in
  if Req_dec_T stdDev 0 then
    Returns (discount * std.max d 0)
  else
    h <- h ;;
    let result := discount * stdDev * CND.derivative h + d * CND.value h in
    QL_ENSURE (Rge_dec result 0) ;;
    Returns result.

(** ** Auxiliary definitions for the statements *)

(** [d1] and the Black price before discounting, as functions of the
    volatility [s], for the shifted forward [F] and strike [K]. *)
Definition black_d1 (F K s : R) : R := ln (F / K) / s + 0.5 * s.

Definition black_kernel (optionType : OptionType) (F K s : R) : R :=
  typeSign optionType *
  (F * CND.value (typeSign optionType * black_d1 F K s)
   - K * CND.value (typeSign optionType * (black_d1 F K s - s))).

(** The value that [blackFormulaImpliedStdDevApproximation] hands to its
    final guard when its arguments are valid: the arithmetic of the
    function without its checks ([approximation_guarded] relates the two). *)
Definition approximationStdDev (optionType : OptionType)
    (strike forward blackPrice discount displacement : R) : R :=
  let forward := forward + displacement in
  let strike := strike + displacement in
  if Req_dec_T strike forward then
    blackPrice / discount * sqrt (2 * M_PI) / forward
  else
    let moneynessDelta := typeSign optionType * (forward - strike) in
    let temp := blackPrice / discount - moneynessDelta / 2 in
    let temp2 := temp * temp - moneynessDelta * moneynessDelta / M_PI in
    let temp2 := if Rlt_dec temp2 0 then 0 else temp2 in
    (temp + sqrt temp2) * sqrt (2 * M_PI) / (forward + strike).

(** A solver that hands its guess back makes the seed observable. *)
Definition echo_guess : Solver1D :=
  fun _ _ _ _ guess _ _ => Returns guess.

(** The objective that [blackFormulaImpliedStdDev] builds on the shifted
    strike [K] and forward [F] for the undiscounted price [p]. *)
Definition objective (optionType : OptionType) (K F p : R) : BlackImpliedStdDevHelper :=
  {| halfOptionType_ := 0.5 * typeSign optionType;
     signedStrike_ := typeSign optionType * (K + 0);
     signedForward_ := typeSign optionType * (F + 0);
     undiscountedBlackPrice_ := p;
     signedMoneyness_ := typeSign optionType * ln ((F + 0) / (K + 0)) |}.

(** ** PiecewiseYieldCurve *)

Definition Date : Type := Z.
Definition Time : Type := R.
Definition DiscountFactor : Type := R.

(** What a method does to the curve, in the order it does it. *)
Inductive Event : Set :=
| CallCalculate      (* calculate() *)
| ReadDates          (* this->dates_ *)
| ReadTimes          (* this->times_ *)
| ReadData           (* this->data_ *)
| CallBaseNodes      (* base_curve::nodes() *)
| CallBaseDiscount.  (* base_curve::discountImpl(t) *)

Section PiecewiseYieldCurve.

(** [Traits::helper], the instruments the curve is bootstrapped on. *)
Context {RateHelper : Type}.

(** The members of the curve: the node vectors inherited from the base
    curve, the instruments and the accuracy, and the flag of [LazyObject]. *)
Record PiecewiseYieldCurve : Type := {
  dates_ : list Date;
  times_ : list Time;
  data_ : list R;
  instruments_ : list RateHelper;
  accuracy_ : R;
  calculated_ : bool
}.

(** [bootstrap_.calculate()]: the bootstrapper is a friend of the curve and
    rewrites its node vectors, or throws. *)
Variable bootstrap_calculate : PiecewiseYieldCurve -> outcome PiecewiseYieldCurve.

(** [base_curve::nodes()] and [base_curve::discountImpl(t)], which read the
    node vectors. *)
Variable base_curve_nodes : PiecewiseYieldCurve -> list (Date * R).
Variable base_curve_discountImpl : PiecewiseYieldCurve -> Time -> DiscountFactor.

(** A method runs on the curve, leaves its events, and returns a value with
    the curve as it then is, or fails. *)
Definition Method (A : Type) : Type :=
  PiecewiseYieldCurve -> list Event * outcome (A * PiecewiseYieldCurve).

Definition ret {A : Type} (a : A) : Method A :=
  fun c => ([], Returns (a, c)).

Definition seq {A B : Type} (m : Method A) (k : A -> Method B) : Method B :=
  fun c =>
    match m c with
    | (t1, Returns (a, c1)) => let (t2, r) := k a c1 in (t1 ++ t2, r)
    | (t1, Throws e) => (t1, Throws e)
    | (t1, NonFinite) => (t1, NonFinite)
    end.

Definition read {A : Type} (e : Event) (f : PiecewiseYieldCurve -> A) : Method A :=
  fun c => ([e], Returns (f c, c)).

Definition set_calculated (b : bool) (c : PiecewiseYieldCurve) : PiecewiseYieldCurve :=
  {| dates_ := dates_ c; times_ := times_ c; data_ := data_ c;
     instruments_ := instruments_ c; accuracy_ := accuracy_ c;
     calculated_ := b |}.

Definition performCalculations (c : PiecewiseYieldCurve) : outcome PiecewiseYieldCurve :=
  (* just delegate to the bootstrapper *)
  bootstrap_calculate c.

(** Modelled from the spec: [LazyObject::calculate] is declared in
    [ql/patterns/lazyobject.hpp], which is not part of the sources at hand.
    Following section 4.4 (6), a query first checks the dirty flag; if the
    curve is dirty the calculation is rerun in full, and the flag is
    cleared only by a successful run. *)
Definition calculate : Method unit :=
  fun c =>
    ([CallCalculate],
     if calculated_ c then Returns (tt, c)
     else
       match performCalculations c with
       | Returns c1 => Returns (tt, set_calculated true c1)
       | Throws e => Throws e
       | NonFinite => NonFinite
       end).

(** [update] calls [base_curve::update] and [LazyObject::update].
    Modelled from the spec: neither is part of the sources at hand;
    following sections 4.4 and 4.5 the call marks the curve dirty (the
    notification of the observers is left out). *)
Definition update (c : PiecewiseYieldCurve) : PiecewiseYieldCurve :=
  set_calculated false c.

(** The last element of a vector, if it has one. *)
Definition back {A : Type} (v : list A) : option A :=
  match rev v with
  | [] => None
  | x :: _ => Some x
  end.

(** [this->dates_.back()]: on an empty vector [back()] has no defined
    behaviour, and the call yields no date. *)
Definition dates_back (c : PiecewiseYieldCurve) : outcome Date :=
  match back (dates_ c) with
  | Some d => Returns d
  | None => Throws Undefined
  end.

(** A read of the curve that may fail. *)
Definition read_partial {A : Type} (e : Event)
    (f : PiecewiseYieldCurve -> outcome A) : Method A :=
  fun c =>
    ([e],
     match f c with
     | Returns a => Returns (a, c)
     | Throws x => Throws x
     | NonFinite => NonFinite
     end).

Definition maxDate : Method Date :=
  seq calculate (fun _ => read_partial ReadDates dates_back).

Definition times : Method (list Time) :=
  seq calculate (fun _ => read ReadTimes times_).

Definition dates : Method (list Date) :=
  seq calculate (fun _ => read ReadDates dates_).

Definition data : Method (list R) :=
  seq calculate (fun _ => read ReadData data_).

Definition nodes : Method (list (Date * R)) :=
  seq calculate (fun _ => read CallBaseNodes base_curve_nodes).

Definition discountImpl (t : Time) : Method DiscountFactor :=
  seq calculate (fun _ => read CallBaseDiscount (fun c => base_curve_discountImpl c t)).

(** The curve a query has to read: the curve itself when it is clean, and
    what the bootstrap makes of it, marked clean, when it is dirty; none
    when the bootstrap fails.  This is the requirement of section 4.4,
    written on the bootstrap and the flag alone. *)
Definition up_to_date (c : PiecewiseYieldCurve) : outcome PiecewiseYieldCurve :=
  if calculated_ c then Returns c
  else
    match bootstrap_calculate c with
    | Returns c1 => Returns (set_calculated true c1)
    | Throws x => Throws x
    | NonFinite => NonFinite
    end.

(** [never_stale m e f]: on every curve, [m] calls [calculate] first; if
    the curve cannot be brought up to date, [m] fails in the same way
    without reading it; otherwise [m] makes the single access [e]
    afterwards, and what it returns is [f] of the up-to-date curve. *)
Definition never_stale {A : Type} (m : Method A) (e : Event)
    (f : PiecewiseYieldCurve -> outcome A) : Prop :=
  forall c,
    match up_to_date c with
    | Returns c1 =>
        m c = ([CallCalculate; e],
               match f c1 with
               | Returns a => Returns (a, c1)
               | Throws x => Throws x
               | NonFinite => NonFinite
               end)
    | Throws x => m c = ([CallCalculate], Throws x)
    | NonFinite => m c = ([CallCalculate], NonFinite)
    end.

End PiecewiseYieldCurve.

Arguments PiecewiseYieldCurve : clear implicits.
Arguments Method : clear implicits.

(** ** Auxiliary definitions for the Gaussian integral *)

(** The partial masses of the weight. *)
Definition gauss_partial (n : nat) : R := gauss_int (INR n).

(** The integrand [exp (- t^2 (1 + x^2) / 2) / (1 + x^2)] and its first two
    derivatives in [t]. *)
Definition wint (t x : R) : R := gauss t * gauss (t * x) / (1 + x * x).

Definition wint_t (t x : R) : R := - t * (gauss t * gauss (t * x)).

Definition wint_tt (t x : R) : R :=
  (t * t * (1 + x * x) - 1) * (gauss t * gauss (t * x)).

Lemma wint_cont (t x : R) : continuity_pt (wint t) x.
Proof.
  revert x. change (continuity (wint t)). unfold wint, gauss. reg.
  intros x. nra.
Qed.

Lemma wint_t_cont (t x : R) : continuity_pt (wint_t t) x.
Proof.
  revert x. change (continuity (wint_t t)). unfold wint_t, gauss. reg.
Qed.

(** The integral of the integrand over [0, 1], and of its derivative. *)
Definition W (t : R) : R := integral (wint t) (wint_cont t) 0 1.

Definition W' (t : R) : R := integral (wint_t t) (wint_t_cont t) 0 1.

(** ** [blackFormula] in binary64 arithmetic *)

(** The same function with [Real] read as the IEEE binary64 format, to
    follow what rounding and overflow do to its checks.  The operations
    [+], [-], [*], [/] and the comparisons are those of the format;
    [std::log] and the distribution function, which are not part of the
    sources at hand, are parameters. *)
Module Binary64.

Definition Real : Set := float.

(** [Option::Type] is an enumeration with [Call = 1] and [Put = -1], and
    is converted to [Real] where it multiplies one. *)
Definition ofOptionType (optionType : OptionType) : Real :=
  match optionType with
  | Call => 1%float
  | Put => (-1)%float
  end.

(** [std::max(a, b)] is [(a < b) ? b : a]. *)
Definition max (a b : Real) : Real :=
  if PrimFloat.ltb a b then b else a.

(** The conditions [x >= y] and [x > y] of the checks. *)
Definition ge (x y : Real) : {PrimFloat.leb y x = true} + {PrimFloat.leb y x <> true} :=
  bool_dec (PrimFloat.leb y x) true.

Definition gt (x y : Real) : {PrimFloat.ltb y x = true} + {PrimFloat.ltb y x <> true} :=
  bool_dec (PrimFloat.ltb y x) true.

Section BlackFormula.

(** [std::log] and [CumulativeNormalDistribution::operator()]. *)
Variable log : Real -> Real.
Variable phi : Real -> Real.

Definition blackFormula (optionType : OptionType)
    (strike forward stdDev discount displacement : Real) : outcome Real :=
  QL_REQUIRE (ge strike 0%float) ;;
  QL_REQUIRE (gt forward 0%float) ;;
  QL_REQUIRE (ge stdDev 0%float) ;;
  QL_REQUIRE (gt discount 0%float) ;;
  QL_REQUIRE (ge displacement 0%float) ;;
  let forward := (forward + displacement)%float in
  let strike := (strike + displacement)%float in
  if PrimFloat.eqb stdDev 0%float then
    Returns (max ((forward - strike) * ofOptionType optionType) 0 * discount)%float
  else if PrimFloat.eqb strike 0%float then
    Returns (match optionType with
             | Call => (forward * discount)%float
             | Put => 0%float
             end)
  else
    let d1 := (log (forward / strike) / stdDev + 0.5 * stdDev)%float in
    let d2 := (d1 - stdDev)%float in
    let result := (discount * ofOptionType optionType *
      (forward * phi (ofOptionType optionType * d1)
       - strike * phi (ofOptionType optionType * d2)))%float in
    QL_ENSURE (ge result 0%float) ;;
    Returns result.

End BlackFormula.

End Binary64.

(** ** The overloads on a payoff *)

(** Each function of the file has an overload that takes the option type
    and the strike from a payoff and passes the other arguments on. *)
Module Payoff.

(** Modelled from the spec: [PlainVanillaPayoff] is declared in
    [ql/instruments/payoffs.hpp], which is not part of the sources at hand;
    the overloads read its option type and its strike only. *)
Record PlainVanillaPayoff : Type := {
  optionType : OptionType;
  strike : R
}.

Definition blackFormula (payoff : PlainVanillaPayoff)
    (forward stdDev discount displacement : R) : outcome R :=
  blackFormula (optionType payoff) (strike payoff)
    forward stdDev discount displacement.

Definition blackFormulaImpliedStdDevApproximation (payoff : PlainVanillaPayoff)
    (forward blackPrice discount displacement : R) : outcome R :=
  blackFormulaImpliedStdDevApproximation (optionType payoff) (strike payoff)
    forward blackPrice discount displacement.

Definition blackFormulaImpliedStdDev (solver : Solver1D)
    (payoff : PlainVanillaPayoff) (forward blackPrice discount : R)
    (guess : option R) (accuracy displacement : R) : outcome R :=
  blackFormulaImpliedStdDev solver (optionType payoff) (strike payoff)
    forward blackPrice discount guess accuracy displacement.

Definition blackFormulaCashItmProbability (payoff : PlainVanillaPayoff)
    (forward stdDev displacement : R) : outcome R :=
  blackFormulaCashItmProbability (optionType payoff) (strike payoff)
    forward stdDev displacement.

Definition blackFormulaStdDevDerivative (payoff : PlainVanillaPayoff)
    (forward stdDev discount displacement : R) : outcome R :=
  blackFormulaStdDevDerivative (strike payoff)
    forward stdDev discount displacement.

Definition bachelierBlackFormula (payoff : PlainVanillaPayoff)
    (forward stdDev discount : R) : outcome R :=
  bachelierBlackFormula (optionType payoff) (strike payoff)
    forward stdDev discount.

End Payoff.

(** ** Reading an outcome as a function of one argument *)

(** The value a call returns, and 0 when it returns none; used to speak of
    the derivative of a price in one of its arguments. *)
Definition value_of (o : outcome R) : R :=
  match o with
  | Returns v => v
  | _ => 0
  end.

(** * Part 2: theorems *)

(** ** Calculus toolbox *)

Section MeanValue.

Variables (f f' : R -> R) (a b : R).
Hypothesis f_deriv : forall c, a <= c <= b -> derivable_pt_lim f c (f' c).

Lemma deriv_nonneg_incr :
  a <= b -> (forall c, a < c < b -> 0 <= f' c) -> f a <= f b.
Proof.
  intros [Hab | Hab] Hpos; [| rewrite Hab; lra].
  destruct (MVT_cor2 f f' a b Hab f_deriv) as (c & Hc & Hin).
  specialize (Hpos c Hin).
  assert (0 <= f' c * (b - a)) by (apply Rmult_le_pos; lra).
  lra.
Qed.

Lemma deriv_pos_incr :
  a < b -> (forall c, a < c < b -> 0 < f' c) -> f a < f b.
Proof.
  intros Hab Hpos.
  destruct (MVT_cor2 f f' a b Hab f_deriv) as (c & Hc & Hin).
  specialize (Hpos c Hin).
  assert (0 < f' c * (b - a)) by (apply Rmult_lt_0_compat; lra).
  lra.
Qed.

Lemma deriv_zero_const :
  a <= b -> (forall c, a < c < b -> f' c = 0) -> f a = f b.
Proof.
  intros [Hab | Hab] Hz; [| rewrite Hab; reflexivity].
  destruct (MVT_cor2 f f' a b Hab f_deriv) as (c & Hc & Hin).
  rewrite (Hz c Hin) in Hc. lra.
Qed.

End MeanValue.

(** Derivatives are read off an expression built from the combinators of
    the library and then converted to the wanted form. *)
Lemma derivable_pt_lim_eq (f g : R -> R) (x l l' : R) :
  (forall z, f z = g z) -> l = l' ->
  derivable_pt_lim f x l -> derivable_pt_lim g x l'.
Proof.
  intros Hfg <- H. exact (derivable_pt_lim_ext f g x l Hfg H).
Qed.

Lemma derivable_pt_lim_mirror (f : R -> R) (x l : R) :
  derivable_pt_lim f (- x) l ->
  derivable_pt_lim (fun z => f (- z)) x (- l).
Proof.
  intros H.
  apply derivable_pt_lim_eq with (f := comp f (- id)%F) (l := l * - 1).
  - intros z. reflexivity.
  - lra.
  - apply derivable_pt_lim_comp.
    + apply derivable_pt_lim_opp. apply derivable_pt_lim_id.
    + exact H.
Qed.

Lemma INR_above (x : R) : exists n : nat, x < INR n.
Proof.
  destruct (Rle_dec x 0) as [Hx | Hx].
  - exists 1%nat. simpl. lra.
  - destruct (archimed x) as [Hup _].
    exists (Z.to_nat (up x)).
    rewrite INR_IZR_INZ, Z2Nat.id; [lra |].
    apply le_IZR. lra.
Qed.

Lemma half_literal : 0.5 = / 2.
Proof. lra. Qed.

Lemma Rabs_le_inv (x y : R) : Rabs x <= y -> - y <= x <= y.
Proof. unfold Rabs. destruct (Rcase_abs x); lra. Qed.

(** ** Taylor's bound of order two *)

Lemma MVT_between (k k' : R -> R) (a b : R) :
  (forall c, derivable_pt_lim k c (k' c)) ->
  exists c, k b - k a = k' c * (b - a) /\ Rabs (c - a) <= Rabs (b - a).
Proof.
  intros Hk.
  destruct (Rtotal_order a b) as [H | [H | H]].
  - destruct (MVT_cor2 k k' a b H (fun c _ => Hk c)) as (c & E & Hc).
    exists c. split; [exact E |].
    rewrite !Rabs_right by lra. lra.
  - exists a. subst b. split; [lra |].
    replace (a - a) with 0 by lra. rewrite Rabs_R0. lra.
  - destruct (MVT_cor2 k k' b a H (fun c _ => Hk c)) as (c & E & Hc).
    exists c. split; [lra |].
    rewrite !Rabs_left by lra. lra.
Qed.

Lemma taylor_bound (k k' k'' : R -> R) (t d M : R) :
  (forall c, derivable_pt_lim k c (k' c)) ->
  (forall c, derivable_pt_lim k' c (k'' c)) ->
  (forall s, Rabs (s - t) <= Rabs d -> Rabs (k'' s) <= M) ->
  Rabs (k (t + d) - k t - d * k' t) <= M * (d * d).
Proof.
  intros Hk Hk' HM.
  destruct (MVT_between k k' t (t + d) Hk) as (c1 & E1 & B1).
  destruct (MVT_between k' k'' t c1 Hk') as (c2 & E2 & B2).
  replace (t + d - t) with d in * by lra.
  assert (B3 : Rabs (k'' c2) <= M) by (apply HM; lra).
  replace (k (t + d) - k t - d * k' t) with (d * (k' c1 - k' t)) by lra.
  rewrite E2.
  rewrite !Rabs_mult.
  assert (P1 := Rabs_pos d). assert (P2 := Rabs_pos (k'' c2)).
  assert (P3 := Rabs_pos (c1 - t)).
  assert (Ed : d * d = Rabs d * Rabs d).
  { unfold Rabs. destruct (Rcase_abs d); ring. }
  rewrite Ed.
  assert (H1 : Rabs (k'' c2) * Rabs (c1 - t) <= M * Rabs d)
    by (apply Rmult_le_compat; assumption).
  replace (M * (Rabs d * Rabs d)) with (Rabs d * (M * Rabs d)) by ring.
  apply Rmult_le_compat_l; assumption.
Qed.

(** ** Facts on the integral *)

Section ContinuousIntegralFacts.

Variable f : R -> R.
Hypothesis f_cont : forall x, continuity_pt f x.

Lemma integral_derivable (x : R) :
  derivable_pt_lim (integral f f_cont 0) x (f x).
Proof.
  assert (h : x - 1 <= x + 1) by lra.
  assert (C0 : forall z, x - 1 <= z <= x + 1 -> continuity_pt f z)
    by (intros z _; apply f_cont).
  pose (c := integral f f_cont 0 (x - 1)).
  apply derivable_pt_lim_locally_ext with
    (f := (fct_cte c + primitive h (FTC_P1 h C0))%F) (a := x - 1) (b := x + 1).
  - lra.
  - intros z Hz. unfold plus_fct, fct_cte, primitive, integral, c.
    destruct (Rle_dec (x - 1) z) as [Hl | Hl]; [| lra].
    destruct (Rle_dec z (x + 1)) as [Hr | Hr]; [| lra].
    apply RiemannInt_P26.
  - replace (f x) with (0 + f x) by lra.
    apply derivable_pt_lim_plus.
    + apply derivable_pt_lim_const.
    + apply RiemannInt_P28. lra.
Qed.

Lemma integral_0 : integral f f_cont 0 0 = 0.
Proof. unfold integral. apply RiemannInt_P9. Qed.

(** The integral of a derivative. *)
Lemma integral_primitive (G : R -> R) (x : R) :
  (forall z, derivable_pt_lim G z (f z)) -> 0 <= x ->
  integral f f_cont 0 x = G x - G 0.
Proof.
  intros HG Hx.
  pose (k := fun z => integral f f_cont 0 z - G z).
  assert (E : k 0 = k x).
  { apply (deriv_zero_const k (fun _ => 0) 0 x); [| exact Hx | reflexivity].
    intros c _. unfold k.
    apply derivable_pt_lim_eq with
      (f := (integral f f_cont 0 - G)%F) (l := f c - f c).
    - intros z. reflexivity.
    - lra.
    - apply derivable_pt_lim_minus; [apply integral_derivable | apply HG]. }
  unfold k in E. rewrite integral_0 in E. lra.
Qed.

Lemma integral_bound (a b M : R) :
  a <= b -> (forall x, a < x < b -> Rabs (f x) <= M) ->
  Rabs (integral f f_cont a b) <= M * (b - a).
Proof.
  intros Hab HM.
  destruct (@RiemannInt_const_bound f a b (- M) M
              (cont_integrable f f_cont a b) Hab) as [H1 H2].
  - intros x Hx. specialize (HM x Hx). unfold Rabs in HM.
    destruct (Rcase_abs (f x)); lra.
  - unfold integral. apply Rabs_le. lra.
Qed.

End ContinuousIntegralFacts.

Lemma integral_ext (f g : R -> R) (Hf : forall x, continuity_pt f x)
    (Hg : forall x, continuity_pt g x) (a b : R) :
  a <= b -> (forall x, a < x < b -> f x = g x) ->
  integral f Hf a b = integral g Hg a b.
Proof.
  intros Hab E. unfold integral. apply RiemannInt_P18; assumption.
Qed.

Lemma integral_linear (f g h : R -> R) (Hf : forall x, continuity_pt f x)
    (Hg : forall x, continuity_pt g x) (Hh : forall x, continuity_pt h x)
    (l a b : R) :
  a <= b -> (forall x, h x = f x + l * g x) ->
  integral h Hh a b = integral f Hf a b + l * integral g Hg a b.
Proof.
  intros Hab E.
  pose (pr3 := RiemannInt_P10 l (cont_integrable f Hf a b) (cont_integrable g Hg a b)).
  transitivity (RiemannInt pr3).
  - unfold integral. apply RiemannInt_P18; [exact Hab |].
    intros x _. apply E.
  - unfold integral. apply RiemannInt_P13.
Qed.

Lemma integral_zero (f : R -> R) (Hf : forall x, continuity_pt f x) (a b : R) :
  a <= b -> (forall x, a < x < b -> f x = 0) -> integral f Hf a b = 0.
Proof.
  intros Hab E.
  assert (H := integral_bound f Hf a b 0 Hab).
  assert (Rabs (integral f Hf a b) <= 0 * (b - a)).
  { apply H. intros x Hx. rewrite (E x Hx), Rabs_R0. lra. }
  unfold Rabs in H0. destruct (Rcase_abs (integral f Hf a b)); lra.
Qed.

Lemma integral_scal (g h : R -> R) (Hg : forall x, continuity_pt g x)
    (Hh : forall x, continuity_pt h x) (l a b : R) :
  a <= b -> (forall x, h x = l * g x) ->
  integral h Hh a b = l * integral g Hg a b.
Proof.
  intros Hab E.
  assert (Hz : forall x, continuity_pt (fct_cte 0) x)
    by (intros x; apply continuity_pt_const; intros u v; reflexivity).
  rewrite (integral_linear (fct_cte 0) g h Hz Hg Hh l a b Hab).
  - rewrite (integral_zero _ Hz a b Hab); [lra | reflexivity].
  - intros x. unfold fct_cte. rewrite E. lra.
Qed.

(** ** Facts on the Gaussian weight *)

Lemma gauss_pos (x : R) : 0 < gauss x.
Proof. apply exp_pos. Qed.

Lemma gauss_even (x : R) : gauss (- x) = gauss x.
Proof. unfold gauss. f_equal. lra. Qed.

Lemma gauss_0 : gauss 0 = 1.
Proof. unfold gauss. replace (- (0 * 0) / 2) with 0 by lra. apply exp_0. Qed.

Lemma gauss_le_1 (x : R) : gauss x <= 1.
Proof.
  unfold gauss. rewrite <- exp_0.
  assert (H : 0 <= x * x) by nra.
  destruct (Req_dec (x * x) 0) as [E | E].
  - rewrite E. replace (- 0 / 2) with 0 by lra. lra.
  - left. apply exp_increasing. lra.
Qed.

Lemma gauss_decr (x y : R) : 0 <= x <= y -> gauss y <= gauss x.
Proof.
  intros [Hx Hxy]. unfold gauss.
  destruct (Req_dec x y) as [-> | Hne]; [lra |].
  left. apply exp_increasing. nra.
Qed.

Lemma derivable_pt_lim_gauss (x : R) :
  derivable_pt_lim gauss x (- x * gauss x).
Proof.
  apply derivable_pt_lim_eq with
    (f := comp exp (mult_real_fct (- / 2) (id * id)%F))
    (l := exp (mult_real_fct (- / 2) (id * id)%F x) * (- / 2 * (1 * id x + id x * 1))).
  - intros z. unfold comp, mult_real_fct, mult_fct, id, gauss. f_equal. lra.
  - unfold gauss, mult_real_fct, mult_fct, id.
    replace (- / 2 * (x * x)) with (- (x * x) / 2) by lra. lra.
  - apply derivable_pt_lim_comp.
    + apply derivable_pt_lim_scal. apply derivable_pt_lim_mult; apply derivable_pt_lim_id.
    + apply derivable_pt_lim_exp.
Qed.

Lemma gauss_int_0 : gauss_int 0 = 0.
Proof. apply integral_0. Qed.

Lemma derivable_pt_lim_gauss_int (x : R) :
  derivable_pt_lim gauss_int x (gauss x).
Proof. apply (integral_derivable gauss gauss_continuity). Qed.

Lemma gauss_int_incr (a b : R) : a < b -> gauss_int a < gauss_int b.
Proof.
  intros Hab.
  apply (deriv_pos_incr gauss_int gauss a b); [| exact Hab |].
  - intros c _. apply derivable_pt_lim_gauss_int.
  - intros c _. apply gauss_pos.
Qed.

Lemma gauss_int_odd (x : R) : gauss_int (- x) = - gauss_int x.
Proof.
  pose (k := fun z => gauss_int z + gauss_int (- z)).
  assert (Hk : forall c, derivable_pt_lim k c ((fun _ => 0) c)).
  { intros c. unfold k.
    apply derivable_pt_lim_eq with
      (f := (gauss_int + (fun z => gauss_int (- z)))%F)
      (l := gauss c + - gauss (- c)).
    - intros z. reflexivity.
    - rewrite gauss_even. lra.
    - apply derivable_pt_lim_plus.
      + apply derivable_pt_lim_gauss_int.
      + apply derivable_pt_lim_mirror. apply derivable_pt_lim_gauss_int. }
  assert (E : forall u v, u <= v -> k u = k v).
  { intros u v Huv.
    apply (deriv_zero_const k (fun _ => 0) u v); [| exact Huv |]; auto. }
  assert (E0 : k x = k 0).
  { destruct (Rle_dec x 0) as [H | H]; [apply E; exact H |].
    symmetry. apply E. lra. }
  unfold k in E0. rewrite Ropp_0, gauss_int_0 in E0. lra.
Qed.

(** The primitive is dominated by twice the arc tangent, hence bounded. *)
Lemma gauss_le_atan_weight (x : R) : gauss x <= 2 * / (1 + x ^ 2).
Proof.
  assert (Hx : 0 <= x * x) by nra.
  assert (He := exp_ineq1_le ((x * x) / 2)).
  unfold gauss. replace (- (x * x) / 2) with (- ((x * x) / 2)) by lra.
  rewrite exp_Ropp.
  assert (Hp : 0 < 1 + x ^ 2) by nra.
  assert (Hq : 0 < exp (x * x / 2)) by apply exp_pos.
  apply Rmult_le_reg_r with (exp (x * x / 2) * (1 + x ^ 2)).
  - apply Rmult_lt_0_compat; assumption.
  - field_simplify; [| lra | lra]. nra.
Qed.

Lemma gauss_int_le_atan (x : R) : 0 <= x -> gauss_int x <= 2 * atan x.
Proof.
  intros Hx.
  pose (m := fun z => 2 * atan z - gauss_int z).
  assert (Hm : forall c, derivable_pt_lim m c ((fun z => 2 * / (1 + z ^ 2) - gauss z) c)).
  { intros c. unfold m.
    apply derivable_pt_lim_eq with
      (f := (mult_real_fct 2 atan - gauss_int)%F)
      (l := 2 * / (1 + c ^ 2) - gauss c).
    - intros z. reflexivity.
    - reflexivity.
    - apply derivable_pt_lim_minus.
      + apply derivable_pt_lim_scal. apply derivable_pt_lim_atan.
      + apply derivable_pt_lim_gauss_int. }
  assert (H : m 0 <= m x).
  { apply (deriv_nonneg_incr m (fun z => 2 * / (1 + z ^ 2) - gauss z) 0 x); [| exact Hx |].
    - intros c _. apply Hm.
    - intros c _. generalize (gauss_le_atan_weight c). lra. }
  unfold m in H. rewrite atan_0, gauss_int_0 in H. lra.
Qed.

Lemma gauss_int_lt_PI (x : R) : gauss_int x < PI.
Proof.
  destruct (Rle_dec 0 x) as [Hx | Hx].
  - generalize (gauss_int_le_atan x Hx) (atan_bound x). lra.
  - assert (gauss_int x < gauss_int 0) by (apply gauss_int_incr; lra).
    rewrite gauss_int_0 in H. generalize PI_RGT_0. lra.
Qed.

Lemma gauss_partial_growing : Un_growing gauss_partial.
Proof.
  intros n. unfold gauss_partial. left. apply gauss_int_incr.
  rewrite S_INR. lra.
Qed.

Lemma gauss_partial_bounded : has_ub gauss_partial.
Proof.
  exists PI. intros r [n ->]. left. apply gauss_int_lt_PI.
Qed.

(** ** The Gaussian integral *)

Lemma gauss_scaled_derivable (x t : R) :
  derivable_pt_lim (fun s => gauss (s * x)) t (- (t * x) * gauss (t * x) * x).
Proof.
  apply derivable_pt_lim_eq with
    (f := comp gauss (mult_real_fct x id))
    (l := - (mult_real_fct x id t) * gauss (mult_real_fct x id t) * (x * 1)).
  - intros z. unfold comp, mult_real_fct, id. f_equal. ring.
  - unfold mult_real_fct, id. replace (x * t) with (t * x) by ring. ring.
  - apply (derivable_pt_lim_comp (mult_real_fct x id) gauss t (x * 1)
             (- (mult_real_fct x id t) * gauss (mult_real_fct x id t))).
    + apply derivable_pt_lim_scal. apply derivable_pt_lim_id.
    + apply derivable_pt_lim_gauss.
Qed.

Lemma gauss_pair_derivable (x t : R) :
  derivable_pt_lim (fun s => gauss s * gauss (s * x)) t
    (- t * (1 + x * x) * (gauss t * gauss (t * x))).
Proof.
  apply derivable_pt_lim_eq with
    (f := (gauss * (fun s => gauss (s * x)))%F)
    (l := - t * gauss t * gauss (t * x)
          + gauss t * (- (t * x) * gauss (t * x) * x)).
  - intros z. reflexivity.
  - ring.
  - apply (derivable_pt_lim_mult gauss (fun s => gauss (s * x)) t
             (- t * gauss t) (- (t * x) * gauss (t * x) * x)).
    + apply derivable_pt_lim_gauss.
    + apply gauss_scaled_derivable.
Qed.

Lemma wint_derivable (x t : R) :
  derivable_pt_lim (fun s => wint s x) t (wint_t t x).
Proof.
  assert (Hx : 1 + x * x <> 0) by nra.
  apply derivable_pt_lim_eq with
    (f := mult_real_fct (/ (1 + x * x)) (fun s => gauss s * gauss (s * x)))
    (l := / (1 + x * x) * (- t * (1 + x * x) * (gauss t * gauss (t * x)))).
  - intros z. unfold mult_real_fct, wint. field. exact Hx.
  - unfold wint_t. field. exact Hx.
  - apply derivable_pt_lim_scal. apply gauss_pair_derivable.
Qed.

Lemma wint_t_derivable (x t : R) :
  derivable_pt_lim (fun s => wint_t s x) t (wint_tt t x).
Proof.
  apply derivable_pt_lim_eq with
    (f := ((- id) * (fun s => (gauss s * gauss (s * x))%R))%F)
    (l := - 1 * (gauss t * gauss (t * x))
          + (- id)%F t * (- t * (1 + x * x) * (gauss t * gauss (t * x)))).
  - intros z. unfold mult_fct, opp_fct, id, wint_t. ring.
  - unfold opp_fct, id, wint_tt. ring.
  - apply (derivable_pt_lim_mult (- id)%F
             (fun s => gauss s * gauss (s * x)) t (- 1)
             (- t * (1 + x * x) * (gauss t * gauss (t * x)))).
    + apply derivable_pt_lim_opp. apply derivable_pt_lim_id.
    + apply gauss_pair_derivable.
Qed.

Lemma wint_tt_bound (t s x : R) :
  0 < x < 1 -> Rabs (s - t) <= 1 ->
  Rabs (wint_tt s x) <= 1 + 2 * ((Rabs t + 1) * (Rabs t + 1)).
Proof.
  intros Hx Hs. unfold wint_tt. rewrite Rabs_mult.
  assert (G1 := gauss_pos s). assert (G2 := gauss_pos (s * x)).
  assert (G3 := gauss_le_1 s). assert (G4 := gauss_le_1 (s * x)).
  assert (G : 0 <= gauss s * gauss (s * x) <= 1) by nra.
  rewrite (Rabs_right (gauss s * gauss (s * x))) by lra.
  assert (Hs2 : s * s <= (Rabs t + 1) * (Rabs t + 1)).
  { assert (As : Rabs s <= Rabs t + 1).
    { replace s with ((s - t) + t) at 1 by lra.
      eapply Rle_trans; [apply Rabs_triang | lra]. }
    assert (Ps := Rabs_pos s).
    replace (s * s) with (Rabs s * Rabs s)
      by (unfold Rabs; destruct (Rcase_abs s); ring).
    apply Rmult_le_compat; lra. }
  assert (B : Rabs (s * s * (1 + x * x) - 1)
              <= 1 + 2 * ((Rabs t + 1) * (Rabs t + 1))).
  { apply Rabs_le. assert (0 <= s * s) by nra. assert (x * x < 1) by nra.
    split; nra. }
  assert (P := Rabs_pos (s * s * (1 + x * x) - 1)).
  nra.
Qed.

Lemma W_taylor (t d : R) :
  Rabs d <= 1 ->
  Rabs (W (t + d) - W t - d * W' t)
  <= (1 + 2 * ((Rabs t + 1) * (Rabs t + 1))) * (d * d).
Proof.
  intros Hd.
  set (M := 1 + 2 * ((Rabs t + 1) * (Rabs t + 1))).
  pose (u := fun x => wint (t + d) x + (- 1) * wint t x).
  pose (v := fun x => u x + (- d) * wint_t t x).
  assert (Hu : forall x, continuity_pt u x).
  { intros x. unfold u.
    apply (continuity_pt_plus (wint (t + d)) (fun x => -1 * wint t x)).
    - apply wint_cont.
    - apply (continuity_pt_scal (wint t)). apply wint_cont. }
  assert (Hv : forall x, continuity_pt v x).
  { intros x. unfold v.
    apply (continuity_pt_plus u (fun x => - d * wint_t t x)).
    - apply Hu.
    - apply (continuity_pt_scal (wint_t t)). apply wint_t_cont. }
  assert (Ev : integral v Hv 0 1 = W (t + d) - W t - d * W' t).
  { rewrite (integral_linear u (wint_t t) v Hu (wint_t_cont t) Hv (- d) 0 1);
      [| lra | reflexivity].
    rewrite (integral_linear (wint (t + d)) (wint t) u (wint_cont (t + d))
               (wint_cont t) Hu (- 1) 0 1); [| lra | reflexivity].
    unfold W, W'. lra. }
  rewrite <- Ev.
  replace (M * (d * d)) with (M * (d * d) * (1 - 0)) by lra.
  apply integral_bound; [lra |].
  intros x Hx. unfold v, u.
  replace (wint (t + d) x + -1 * wint t x + - d * wint_t t x)
    with (wint (t + d) x - wint t x - d * wint_t t x) by lra.
  apply (taylor_bound (fun s => wint s x) (fun s => wint_t s x)
           (fun s => wint_tt s x) t d M).
  - intros c. apply wint_derivable.
  - intros c. apply wint_t_derivable.
  - intros s Hs. apply wint_tt_bound; [exact Hx | lra].
Qed.

Lemma W_derivable (t : R) : derivable_pt_lim W t (W' t).
Proof.
  set (M := 1 + 2 * ((Rabs t + 1) * (Rabs t + 1))).
  assert (HM : 1 <= M).
  { unfold M. assert (P := Rabs_pos t). nra. }
  intros eps Heps.
  assert (Hdelta : 0 < Rmin 1 (eps / (2 * M))).
  { apply Rmin_pos; [lra |]. apply Rdiv_lt_0_compat; lra. }
  exists (mkposreal _ Hdelta). simpl. intros h Hh0 Hh.
  assert (H1 : Rabs h <= 1).
  { apply Rlt_le. eapply Rlt_le_trans; [exact Hh | apply Rmin_l]. }
  assert (H2 : Rabs h < eps / (2 * M)).
  { eapply Rlt_le_trans; [exact Hh | apply Rmin_r]. }
  assert (T := W_taylor t h H1). fold M in T.
  assert (Ph : 0 < Rabs h) by (apply Rabs_pos_lt; exact Hh0).
  replace ((W (t + h) - W t) / h - W' t)
    with ((W (t + h) - W t - h * W' t) / h) by (field; exact Hh0).
  unfold Rdiv. rewrite Rabs_mult, Rabs_inv.
  apply Rmult_lt_reg_r with (Rabs h); [exact Ph |].
  rewrite Rmult_assoc, Rinv_l, Rmult_1_r by lra.
  assert (Ed : h * h = Rabs h * Rabs h)
    by (unfold Rabs; destruct (Rcase_abs h); ring).
  rewrite Ed in T.
  assert (H3 : M * Rabs h < eps).
  { apply Rmult_lt_reg_r with (/ (2 * M)).
    - apply Rinv_0_lt_compat. lra.
    - replace (M * Rabs h * / (2 * M)) with (Rabs h / 2) by (field; lra).
      unfold Rdiv in H2. lra. }
  eapply Rle_lt_trans; [exact T |].
  replace (M * (Rabs h * Rabs h)) with (M * Rabs h * Rabs h) by ring.
  apply Rmult_lt_compat_r; assumption.
Qed.

Lemma gauss_scaled_cont (t x : R) : continuity_pt (fun z => t * gauss (t * z)) x.
Proof.
  revert x. change (continuity (fun z => t * gauss (t * z))). unfold gauss. reg.
Qed.

Lemma W'_eq (t : R) : W' t = - gauss t * gauss_int t.
Proof.
  unfold W'.
  rewrite (integral_scal (fun z => t * gauss (t * z)) (wint_t t)
             (gauss_scaled_cont t) (wint_t_cont t) (- gauss t) 0 1);
    [| lra | intros x; unfold wint_t; ring].
  f_equal.
  rewrite (integral_primitive _ (gauss_scaled_cont t)
             (fun z => gauss_int (t * z)) 1); [| | lra].
  - rewrite Rmult_1_r, Rmult_0_r, gauss_int_0. lra.
  - intros z.
    apply derivable_pt_lim_eq with
      (f := comp gauss_int (mult_real_fct t id))
      (l := gauss (mult_real_fct t id z) * (t * 1)).
    + intros y. reflexivity.
    + unfold mult_real_fct, id. ring.
    + apply (derivable_pt_lim_comp (mult_real_fct t id) gauss_int z (t * 1)
               (gauss (mult_real_fct t id z))).
      * apply derivable_pt_lim_scal. apply derivable_pt_lim_id.
      * apply derivable_pt_lim_gauss_int.
Qed.

Lemma atan_weight_cont (x : R) : continuity_pt (fun z => / (1 + z ^ 2)) x.
Proof.
  revert x. change (continuity (fun z => / (1 + z ^ 2))).
  reg; intros x; nra.
Qed.

Lemma W_0 : W 0 = PI / 4.
Proof.
  unfold W.
  rewrite (integral_ext (wint 0) (fun z => / (1 + z ^ 2)) (wint_cont 0)
             atan_weight_cont 0 1); [| lra |].
  - rewrite (integral_primitive _ atan_weight_cont atan 1); [| | lra].
    + rewrite atan_1, atan_0. lra.
    + intros z. apply derivable_pt_lim_atan.
  - intros x _. unfold wint. rewrite Rmult_0_l, gauss_0. field. nra.
Qed.

Lemma gauss_int_sqr_plus_W (t : R) :
  0 <= t -> gauss_int t * gauss_int t / 2 + W t = PI / 4.
Proof.
  intros Ht.
  pose (q := fun s => gauss_int s * gauss_int s / 2 + W s).
  assert (E : q 0 = q t).
  { apply (deriv_zero_const q (fun _ => 0) 0 t); [| exact Ht | reflexivity].
    intros c _. unfold q.
    apply derivable_pt_lim_eq with
      (f := (mult_real_fct (/ 2) (gauss_int * gauss_int) + W)%F)
      (l := / 2 * (gauss c * gauss_int c + gauss_int c * gauss c) + W' c).
    - intros z. unfold plus_fct, mult_real_fct, mult_fct. lra.
    - rewrite W'_eq. lra.
    - apply derivable_pt_lim_plus.
      + apply derivable_pt_lim_scal.
        apply derivable_pt_lim_mult; apply derivable_pt_lim_gauss_int.
      + apply W_derivable. }
  unfold q in E. rewrite gauss_int_0, W_0 in E. lra.
Qed.

Lemma W_bound (t : R) : Rabs (W t) <= gauss t.
Proof.
  unfold W.
  replace (gauss t) with (gauss t * (1 - 0)) by lra.
  apply integral_bound; [lra |].
  intros x Hx. unfold wint.
  assert (G1 := gauss_pos t). assert (G2 := gauss_pos (t * x)).
  assert (G4 := gauss_le_1 (t * x)).
  assert (Hq : 0 < / (1 + x * x) <= 1).
  { split.
    - apply Rinv_0_lt_compat. nra.
    - rewrite <- Rinv_1. apply Rinv_le_contravar; nra. }
  rewrite Rabs_right.
  - unfold Rdiv.
    replace (gauss t) with (gauss t * 1 * 1) at 2 by lra.
    apply Rmult_le_compat; try lra.
    + apply Rmult_le_pos; lra.
    + apply Rmult_le_compat; lra.
  - apply Rle_ge. unfold Rdiv. apply Rmult_le_pos; [| lra].
    apply Rmult_le_pos; lra.
Qed.

Lemma gauss_small (eta : R) : 0 < eta -> exists T, 0 <= T /\ forall t, T <= t -> gauss t < eta.
Proof.
  intros He.
  exists (2 / eta + 1).
  assert (Hq : 0 < 2 / eta) by (apply Rdiv_lt_0_compat; lra).
  split; [lra |].
  intros t Ht.
  eapply Rle_lt_trans; [apply gauss_le_atan_weight |].
  assert (Ht1 : 1 <= t) by lra.
  assert (Hd : 0 < 1 + t ^ 2) by nra.
  apply Rmult_lt_reg_r with (1 + t ^ 2); [exact Hd |].
  rewrite Rmult_assoc, Rinv_l by lra.
  assert (2 < eta * t).
  { apply Rlt_le_trans with (eta * (2 / eta + 1)).
    - replace (eta * (2 / eta + 1)) with (2 + eta) by (field; lra). lra.
    - apply Rmult_le_compat_l; lra. }
  assert (eta * t <= eta * (1 + t ^ 2)).
  { apply Rmult_le_compat_l; [lra | nra]. }
  lra.
Qed.

(** The partial masses grow to a limit, whose square is computed. *)
Section GaussMass.

Variable gauss_half_mass : R.
Hypothesis gauss_half_mass_cv : Un_cv gauss_partial gauss_half_mass.

Lemma gauss_int_lt_half_mass (x : R) : gauss_int x < gauss_half_mass.
Proof.
  destruct (INR_above x) as [n Hn].
  apply Rlt_le_trans with (gauss_int (INR n)).
  - apply gauss_int_incr. exact Hn.
  - apply (growing_ineq gauss_partial _ gauss_partial_growing gauss_half_mass_cv n).
Qed.

Lemma gauss_half_mass_pos : 0 < gauss_half_mass.
Proof. rewrite <- gauss_int_0. apply gauss_int_lt_half_mass. Qed.

Lemma gauss_int_tail (eps : R) :
  0 < eps -> exists M, forall x, M <= x -> gauss_half_mass - eps < gauss_int x.
Proof.
  intros He.
  destruct (gauss_half_mass_cv eps He) as [N HN].
  exists (INR N). intros x Hx.
  specialize (HN N (Nat.le_refl N)).
  unfold Rdist, gauss_partial in HN.
  apply Rabs_def2 in HN.
  destruct Hx as [Hx | <-]; [| lra].
  generalize (gauss_int_incr _ _ Hx). lra.
Qed.

(** The Gaussian integral: the weight has mass [sqrt (2 pi)]. *)
Theorem gauss_half_mass_sqr : gauss_half_mass * gauss_half_mass = PI / 2.
Proof.
  assert (HL := gauss_half_mass_pos).
  assert (Hsq : forall t, 0 <= t ->
            Rabs (PI / 4 - gauss_int t * gauss_int t / 2) <= gauss t).
  { intros t Ht. rewrite <- (gauss_int_sqr_plus_W t Ht).
    replace (gauss_int t * gauss_int t / 2 + W t - gauss_int t * gauss_int t / 2)
      with (W t) by lra.
    apply W_bound. }
  assert (Hint : forall t, 0 <= t -> 0 <= gauss_int t < gauss_half_mass).
  { intros t Ht. split; [| apply gauss_int_lt_half_mass].
    rewrite <- gauss_int_0. destruct Ht as [Ht | <-]; [| lra].
    left. apply gauss_int_incr. exact Ht. }
  destruct (Rtotal_order (gauss_half_mass * gauss_half_mass) (PI / 2))
    as [Hlt | [Heq | Hgt]]; [exfalso | exact Heq | exfalso].
  - (* the mass would be too small *)
    destruct (gauss_small ((PI / 2 - gauss_half_mass * gauss_half_mass) / 2))
      as (T & HT0 & HT); [lra |].
    specialize (HT T (Rle_refl T)). specialize (Hsq T HT0).
    destruct (Hint T HT0) as [I0 I1].
    assert (gauss_int T * gauss_int T <= gauss_half_mass * gauss_half_mass)
      by (apply Rmult_le_compat; lra).
    apply Rabs_le_inv in Hsq. lra.
  - (* the mass would be too large *)
    set (L := gauss_half_mass) in *.
    set (e := (L * L - PI / 2) / (4 * L)).
    assert (He : 0 < e).
    { unfold e. apply Rdiv_lt_0_compat; lra. }
    assert (HeL : 4 * L * e = L * L - PI / 2) by (unfold e; field; lra).
    destruct (gauss_int_tail e He) as [M1 HM1].
    destruct (gauss_small ((L * L - PI / 2) / 8)) as (T & HT0 & HT); [lra |].
    set (t := Rmax T M1).
    assert (Ht1 : T <= t) by apply Rmax_l.
    assert (Ht2 : M1 <= t) by apply Rmax_r.
    specialize (HT t Ht1). specialize (HM1 t Ht2). fold L in HM1.
    assert (Ht0 : 0 <= t) by lra.
    specialize (Hsq t Ht0). destruct (Hint t Ht0) as [I0 I1]. fold L in I1.
    apply Rabs_le_inv in Hsq.
    assert (PI4 := PI_RGT_0).
    assert (HeltL : e < L).
    { apply Rmult_lt_reg_l with (4 * L); [lra |]. rewrite HeL.
      assert (0 < PI / 2) by lra. nra. }
    assert (Hlow : (L - e) * (L - e) <= gauss_int t * gauss_int t)
      by (apply Rmult_le_compat; lra).
    nra.
Qed.

Theorem gauss_mass : 2 * gauss_half_mass = sqrt (2 * PI).
Proof.
  symmetry. apply sqrt_lem_1.
  - generalize PI_RGT_0. lra.
  - generalize gauss_half_mass_pos. lra.
  - generalize gauss_half_mass_sqr. lra.
Qed.

End GaussMass.

(** The weight has the mass [sqrt (2 pi)], half of it on each side. *)
Theorem gauss_partial_cv : Un_cv gauss_partial (sqrt (2 * PI) / 2).
Proof.
  destruct (growing_cv gauss_partial gauss_partial_growing gauss_partial_bounded)
    as [L HL].
  replace (sqrt (2 * PI) / 2) with L; [exact HL |].
  generalize (gauss_mass L HL). lra.
Qed.

Lemma gauss_int_below (x : R) : gauss_int x < sqrt (2 * PI) / 2.
Proof. exact (gauss_int_lt_half_mass _ gauss_partial_cv x). Qed.

Lemma gauss_int_upper_tail (eps : R) :
  0 < eps -> exists M, forall x, M <= x -> sqrt (2 * PI) / 2 - eps < gauss_int x.
Proof. exact (gauss_int_tail _ gauss_partial_cv eps). Qed.

(** ** The normal distribution *)

Lemma gauss_mass_pos : 0 < sqrt (2 * PI).
Proof. apply sqrt_lt_R0. generalize PI_RGT_0. lra. Qed.

Lemma cnd_derivative_pos (x : R) : 0 < CND.derivative x.
Proof.
  unfold CND.derivative.
  apply Rdiv_lt_0_compat; [apply gauss_pos | apply gauss_mass_pos].
Qed.

Lemma cnd_derivative_even (x : R) : CND.derivative (- x) = CND.derivative x.
Proof. unfold CND.derivative. rewrite gauss_even. reflexivity. Qed.

Lemma cnd_derivative_gauss (x : R) :
  CND.derivative x = CND.derivative 0 * gauss x.
Proof. unfold CND.derivative. rewrite gauss_0. field. generalize gauss_mass_pos. lra. Qed.

Lemma cnd_value_derivable (x : R) :
  derivable_pt_lim CND.value x (CND.derivative x).
Proof.
  apply derivable_pt_lim_eq with
    (f := (fct_cte (/ 2) + mult_real_fct (/ (sqrt (2 * PI))) gauss_int)%F)
    (l := 0 + / (sqrt (2 * PI)) * gauss x).
  - intros z. unfold plus_fct, fct_cte, mult_real_fct, CND.value. lra.
  - unfold CND.derivative. lra.
  - apply derivable_pt_lim_plus.
    + apply derivable_pt_lim_const.
    + apply derivable_pt_lim_scal. apply derivable_pt_lim_gauss_int.
Qed.

Lemma cnd_derivative_derivable (x : R) :
  derivable_pt_lim CND.derivative x (- x * CND.derivative x).
Proof.
  apply derivable_pt_lim_eq with
    (f := mult_real_fct (/ (sqrt (2 * PI))) gauss)
    (l := / (sqrt (2 * PI)) * (- x * gauss x)).
  - intros z. unfold mult_real_fct, CND.derivative. lra.
  - unfold CND.derivative. lra.
  - apply derivable_pt_lim_scal. apply derivable_pt_lim_gauss.
Qed.

Lemma cnd_value_sym (x : R) : CND.value (- x) = 1 - CND.value x.
Proof. unfold CND.value. rewrite gauss_int_odd. lra. Qed.

Lemma cnd_value_0 : CND.value 0 = / 2.
Proof. unfold CND.value. rewrite gauss_int_0. lra. Qed.

Lemma cnd_value_lt_1 (x : R) : CND.value x < 1.
Proof.
  unfold CND.value.
  assert (Hm := gauss_mass_pos).
  assert (gauss_int x / (sqrt (2 * PI)) < / 2); [| lra].
  apply Rmult_lt_reg_r with (sqrt (2 * PI)); [exact Hm |].
  unfold Rdiv. rewrite Rmult_assoc, Rinv_l by lra.
  generalize (gauss_int_below x). lra.
Qed.

Lemma cnd_value_pos (x : R) : 0 < CND.value x.
Proof.
  generalize (cnd_value_lt_1 (- x)). rewrite cnd_value_sym. lra.
Qed.

Lemma cnd_value_incr (a b : R) : a < b -> CND.value a < CND.value b.
Proof.
  intros Hab.
  apply (deriv_pos_incr CND.value CND.derivative a b); [| exact Hab |].
  - intros c _. apply cnd_value_derivable.
  - intros c _. apply cnd_derivative_pos.
Qed.

(** The distribution function tends to one at infinity. *)
Lemma cnd_value_upper_tail (eps : R) :
  0 < eps -> exists M, forall x, M <= x -> 1 - eps < CND.value x.
Proof.
  intros He.
  assert (Hm := gauss_mass_pos).
  destruct (gauss_int_upper_tail (eps * (sqrt (2 * PI)))) as [M HM].
  { apply Rmult_lt_0_compat; lra. }
  exists M. intros x Hx. specialize (HM x Hx).
  unfold CND.value.
  assert (/ 2 - eps < gauss_int x / (sqrt (2 * PI))); [| lra].
  apply Rmult_lt_reg_r with (sqrt (2 * PI)); [exact Hm |].
  unfold Rdiv. rewrite Rmult_assoc, Rinv_l by lra.
  lra.
Qed.

(** Mills' bound on the upper tail: [x * (1 - value x) <= derivative x]. *)
Lemma cnd_mills (x : R) :
  0 < x -> x * (1 - CND.value x) <= CND.derivative x.
Proof.
  intros Hx.
  pose (g := fun z => CND.derivative z / z - (1 - CND.value z)).
  pose (g' := fun z => - (CND.derivative z / (z * z))).
  assert (Hg : forall c, 0 < c -> derivable_pt_lim g c (g' c)).
  { intros c Hc. unfold g, g'.
    apply derivable_pt_lim_eq with
      (f := ((CND.derivative / id) - (fct_cte 1 - CND.value))%F)
      (l := (- c * CND.derivative c * id c - 1 * CND.derivative c) / Rsqr (id c)
            - (0 - CND.derivative c)).
    - intros z. reflexivity.
    - unfold id, Rsqr. field. lra.
    - apply derivable_pt_lim_minus.
      + apply derivable_pt_lim_div.
        * apply cnd_derivative_derivable.
        * apply derivable_pt_lim_id.
        * unfold id. lra.
      + apply derivable_pt_lim_minus.
        * apply derivable_pt_lim_const.
        * apply cnd_value_derivable. }
  assert (Hdecr : forall y, x <= y -> g y <= g x).
  { intros y Hxy.
    assert (H : (- g)%F x <= (- g)%F y).
    { apply (deriv_nonneg_incr (- g)%F (fun z => - g' z) x y); [| exact Hxy |].
      - intros c Hc. apply derivable_pt_lim_opp. apply Hg. lra.
      - intros c Hc. unfold g'. rewrite Ropp_involutive.
        apply Rlt_le. apply Rdiv_lt_0_compat; [apply cnd_derivative_pos | nra]. }
    unfold opp_fct in H. lra. }
  destruct (Rle_dec 0 (g x)) as [Hge | Hlt].
  - unfold g in Hge.
    assert (E : CND.derivative x = CND.derivative x / x * x) by (field; lra).
    rewrite E. nra.
  - exfalso.
    destruct (cnd_value_upper_tail (- g x)) as [M HM]; [lra |].
    pose (y := Rmax x M).
    assert (Hy1 : x <= y) by apply Rmax_l.
    assert (Hy2 : M <= y) by apply Rmax_r.
    specialize (HM y Hy2). specialize (Hdecr y Hy1).
    assert (0 < CND.derivative y / y).
    { apply Rdiv_lt_0_compat; [apply cnd_derivative_pos | lra]. }
    unfold g in Hdecr at 1. lra.
Qed.

(** The Bachelier kernel [derivative x + x * value x] is positive. *)
Lemma cnd_kernel_pos (x : R) : 0 < CND.derivative x + x * CND.value x.
Proof.
  destruct (Rlt_dec x 0) as [Hneg | Hpos].
  - assert (H := cnd_mills (- x)).
    rewrite cnd_derivative_even in H.
    replace (1 - CND.value (- x)) with (CND.value x) in H
      by (rewrite cnd_value_sym; lra).
    assert (Hlt : - x * CND.value x < CND.derivative x); [| lra].
    (* strictness: the bound at a smaller point transfers *)
    destruct (Rle_lt_or_eq_dec _ _ (H ltac:(lra))) as [Hs | He]; [exact Hs |].
    exfalso.
    pose (k := fun z => CND.derivative z + z * CND.value z).
    assert (Hk : forall c, derivable_pt_lim k c (CND.value c)).
    { intros c. unfold k.
      apply derivable_pt_lim_eq with
        (f := (CND.derivative + id * CND.value)%F)
        (l := - c * CND.derivative c + (1 * CND.value c + id c * CND.derivative c)).
      - intros z. reflexivity.
      - unfold id. lra.
      - apply derivable_pt_lim_plus.
        + apply cnd_derivative_derivable.
        + apply derivable_pt_lim_mult.
          * apply derivable_pt_lim_id.
          * apply cnd_value_derivable. }
    assert (Hk1 : k (x - 1) < k x).
    { apply (deriv_pos_incr k CND.value (x - 1) x); [| lra |].
      - intros c _. apply Hk.
      - intros c _. apply cnd_value_pos. }
    assert (Hk0 : 0 <= k (x - 1)).
    { unfold k.
      assert (H1 := cnd_mills (- (x - 1)) ltac:(lra)).
      rewrite cnd_derivative_even in H1.
      replace (1 - CND.value (- (x - 1))) with (CND.value (x - 1)) in H1
        by (rewrite cnd_value_sym; lra).
      lra. }
    unfold k in Hk1 at 2. lra.
  - assert (0 < CND.derivative x) by apply cnd_derivative_pos.
    assert (0 <= x * CND.value x).
    { apply Rmult_le_pos; [lra | left; apply cnd_value_pos]. }
    lra.
Qed.

Lemma cnd_ratio_strict (a b : R) :
  a < b -> CND.value a * gauss b < CND.value b * gauss a.
Proof.
  intros Hab.
  pose (r := fun z => CND.value z * exp (z * z / 2)).
  pose (r' := fun z => exp (z * z / 2) * (CND.derivative z + z * CND.value z)).
  assert (H : r a < r b).
  { apply (deriv_pos_incr r r' a b); [| exact Hab |].
    - intros c _. unfold r, r'.
      apply derivable_pt_lim_eq with
        (f := (CND.value * comp exp (mult_real_fct (/ 2) (id * id)))%F)
        (l := CND.derivative c * comp exp (mult_real_fct (/ 2) (id * id)%F) c
              + CND.value c * (exp (mult_real_fct (/ 2) (id * id)%F c)
                               * (/ 2 * (1 * id c + id c * 1)))).
      + intros z. unfold mult_fct, comp, mult_real_fct, id. f_equal. f_equal. lra.
      + unfold comp, mult_real_fct, mult_fct, id.
        replace (/ 2 * (c * c)) with (c * c / 2) by lra. field.
      + apply derivable_pt_lim_mult.
        * apply cnd_value_derivable.
        * apply derivable_pt_lim_comp.
          -- apply derivable_pt_lim_scal.
             apply derivable_pt_lim_mult; apply derivable_pt_lim_id.
          -- apply derivable_pt_lim_exp.
    - intros c _. unfold r'. apply Rmult_lt_0_compat.
      + apply exp_pos.
      + apply cnd_kernel_pos. }
  unfold r in H.
  assert (Ea : forall z, exp (z * z / 2) * gauss z = 1).
  { intros z. unfold gauss. rewrite <- exp_plus.
    replace (z * z / 2 + - (z * z) / 2) with 0 by lra. apply exp_0. }
  assert (Ha := gauss_pos a). assert (Hb := gauss_pos b).
  assert (H2 : CND.value a * exp (a * a / 2) * (gauss a * gauss b)
               < CND.value b * exp (b * b / 2) * (gauss a * gauss b)).
  { apply Rmult_lt_compat_r; [| exact H]. apply Rmult_lt_0_compat; assumption. }
  replace (CND.value a * exp (a * a / 2) * (gauss a * gauss b))
    with (CND.value a * gauss b * (exp (a * a / 2) * gauss a)) in H2 by ring.
  replace (CND.value b * exp (b * b / 2) * (gauss a * gauss b))
    with (CND.value b * gauss a * (exp (b * b / 2) * gauss b)) in H2 by ring.
  rewrite !Ea in H2. lra.
Qed.

(** ** Proof automation for the guards *)

Ltac case_guard :=
  match goal with
  | |- context [Rge_dec ?a ?b] => destruct (Rge_dec a b); try (exfalso; lra)
  | |- context [Rgt_dec ?a ?b] => destruct (Rgt_dec a b); try (exfalso; lra)
  | |- context [Rlt_dec ?a ?b] => destruct (Rlt_dec a b); try (exfalso; lra)
  | |- context [Rle_dec ?a ?b] => destruct (Rle_dec a b); try (exfalso; lra)
  | |- context [Req_dec_T ?a ?b] => destruct (Req_dec_T a b); try (exfalso; lra)
  end.

Ltac run_guards :=
  unfold QL_REQUIRE, QL_ENSURE, fdiv, std.log, std.sqrt, std.max; cbn [bind];
  repeat (case_guard; cbn [bind]).

(** ** The undiscounted Black price as a function of the volatility *)

Section BlackInStdDev.

Variables F K : R.
Hypothesis F_pos : 0 < F.
Hypothesis K_pos : 0 < K.

Let d1 := black_d1 F K.
Let call := black_kernel Call F K.
Let put := black_kernel Put F K.

Lemma black_call_eq (s : R) :
  call s = F * CND.value (d1 s) - K * CND.value (d1 s - s).
Proof.
  unfold call, black_kernel, d1. simpl. rewrite !Rmult_1_l. reflexivity.
Qed.

Lemma black_put_eq (s : R) :
  put s = K * CND.value (- (d1 s - s)) - F * CND.value (- d1 s).
Proof.
  unfold put, black_kernel, d1. simpl.
  replace (-1 * black_d1 F K s) with (- black_d1 F K s) by lra.
  replace (-1 * (black_d1 F K s - s)) with (- (black_d1 F K s - s)) by lra.
  lra.
Qed.

Lemma black_parity (s : R) : call s - put s = F - K.
Proof.
  rewrite black_call_eq, black_put_eq, !cnd_value_sym. ring.
Qed.

Lemma black_identity (s : R) :
  0 < s -> F * gauss (d1 s) = K * gauss (d1 s - s).
Proof.
  intros Hs.
  assert (HFK : 0 < F / K) by (apply Rdiv_lt_0_compat; assumption).
  assert (E : - ((d1 s - s) * (d1 s - s)) / 2 = - (d1 s * d1 s) / 2 + ln (F / K)).
  { unfold d1, black_d1. rewrite half_literal. field. lra. }
  unfold gauss at 2. rewrite E, exp_plus, exp_ln by exact HFK.
  unfold gauss. field. lra.
Qed.

Lemma black_call_pos (s : R) : 0 < s -> 0 < call s.
Proof.
  intros Hs. rewrite black_call_eq.
  assert (H := cnd_ratio_strict (d1 s - s) (d1 s) ltac:(lra)).
  assert (G := black_identity s Hs).
  assert (H1 := gauss_pos (d1 s)).
  assert (H3 : K * (CND.value (d1 s - s) * gauss (d1 s))
               < K * (CND.value (d1 s) * gauss (d1 s - s))).
  { apply Rmult_lt_compat_l; lra. }
  replace (K * (CND.value (d1 s) * gauss (d1 s - s)))
    with (CND.value (d1 s) * (K * gauss (d1 s - s))) in H3 by ring.
  rewrite <- G in H3.
  assert (H4 : (K * CND.value (d1 s - s)) * gauss (d1 s)
               < (F * CND.value (d1 s)) * gauss (d1 s)) by lra.
  apply Rmult_lt_reg_r in H4; lra.
Qed.

Lemma black_put_pos (s : R) : 0 < s -> 0 < put s.
Proof.
  intros Hs. rewrite black_put_eq.
  assert (H := cnd_ratio_strict (- d1 s) (- (d1 s - s)) ltac:(lra)).
  rewrite !gauss_even in H.
  assert (G := black_identity s Hs).
  assert (H1 := gauss_pos (d1 s)).
  assert (H3 : K * (CND.value (- d1 s) * gauss (d1 s - s))
               < K * (CND.value (- (d1 s - s)) * gauss (d1 s))).
  { apply Rmult_lt_compat_l; lra. }
  replace (K * (CND.value (- d1 s) * gauss (d1 s - s)))
    with (CND.value (- d1 s) * (K * gauss (d1 s - s))) in H3 by ring.
  rewrite <- G in H3.
  assert (H4 : (F * CND.value (- d1 s)) * gauss (d1 s)
               < (K * CND.value (- (d1 s - s))) * gauss (d1 s)) by lra.
  apply Rmult_lt_reg_r in H4; lra.
Qed.

(** Vega: the derivative of the call in the volatility. *)
Lemma black_d1_derivable (s : R) :
  0 < s -> derivable_pt_lim d1 s (- ln (F / K) / (s * s) + / 2).
Proof.
  intros Hs. unfold d1, black_d1.
  apply derivable_pt_lim_eq with
    (f := (fct_cte (ln (F / K)) / id + mult_real_fct (/ 2) id)%F)
    (l := (0 * id s - 1 * fct_cte (ln (F / K)) s) / Rsqr (id s) + / 2 * 1).
  - intros z. unfold plus_fct, div_fct, fct_cte, mult_real_fct, id. lra.
  - unfold fct_cte, id, Rsqr. field. lra.
  - apply derivable_pt_lim_plus.
    + apply derivable_pt_lim_div.
      * apply derivable_pt_lim_const.
      * apply derivable_pt_lim_id.
      * unfold id. lra.
    + apply derivable_pt_lim_scal. apply derivable_pt_lim_id.
Qed.

Lemma black_call_derivable (s : R) :
  0 < s -> derivable_pt_lim call s (F * CND.derivative (d1 s)).
Proof.
  intros Hs.
  pose (d1' := - ln (F / K) / (s * s) + / 2).
  assert (Hd1 := black_d1_derivable s Hs). fold d1' in Hd1.
  assert (Hd2 : derivable_pt_lim (d1 - id)%F s (d1' - 1)).
  { apply derivable_pt_lim_minus; [exact Hd1 | apply derivable_pt_lim_id]. }
  apply derivable_pt_lim_eq with
    (f := (mult_real_fct F (comp CND.value d1)
           - mult_real_fct K (comp CND.value (d1 - id)))%F)
    (l := F * (CND.derivative (d1 s) * d1')
          - K * (CND.derivative ((d1 - id)%F s) * (d1' - 1))).
  - intros z. rewrite black_call_eq. reflexivity.
  - unfold minus_fct, id.
    assert (G := black_identity s Hs).
    rewrite (cnd_derivative_gauss (d1 s)), (cnd_derivative_gauss (d1 s - s)).
    replace (K * (CND.derivative 0 * gauss (d1 s - s) * (d1' - 1)))
      with (CND.derivative 0 * (K * gauss (d1 s - s)) * (d1' - 1)) by ring.
    rewrite <- G. ring.
  - apply derivable_pt_lim_minus.
    + apply derivable_pt_lim_scal. apply derivable_pt_lim_comp.
      * exact Hd1.
      * apply cnd_value_derivable.
    + apply derivable_pt_lim_scal. apply derivable_pt_lim_comp.
      * exact Hd2.
      * apply cnd_value_derivable.
Qed.

Lemma black_call_incr (a b : R) : 0 < a -> a < b -> call a < call b.
Proof.
  intros Ha Hab.
  apply (deriv_pos_incr call (fun s => F * CND.derivative (d1 s)) a b);
    [| exact Hab |].
  - intros c Hc. apply black_call_derivable. lra.
  - intros c _. apply Rmult_lt_0_compat; [exact F_pos | apply cnd_derivative_pos].
Qed.

End BlackInStdDev.

Lemma black_kernel_pos (optionType : OptionType) (F K s : R) :
  0 < F -> 0 < K -> 0 < s -> 0 < black_kernel optionType F K s.
Proof.
  intros HF HK Hs. destruct optionType.
  - apply black_call_pos; assumption.
  - apply black_put_pos; assumption.
Qed.

Lemma black_kernel_above_intrinsic (optionType : OptionType) (F K s : R) :
  0 < F -> 0 < K -> 0 < s ->
  typeSign optionType * (F - K) < black_kernel optionType F K s.
Proof.
  intros HF HK Hs.
  assert (P := black_parity F K s).
  assert (C := black_call_pos F K HF HK s Hs).
  assert (Q := black_put_pos F K HF HK s Hs).
  destruct optionType; simpl; lra.
Qed.

Lemma black_kernel_incr (optionType : OptionType) (F K a b : R) :
  0 < F -> 0 < K -> 0 < a -> a < b ->
  black_kernel optionType F K a < black_kernel optionType F K b.
Proof.
  intros HF HK Ha Hab.
  assert (C := black_call_incr F K HF HK a b Ha Hab).
  destruct optionType; [exact C |].
  generalize (black_parity F K a) (black_parity F K b). lra.
Qed.

Lemma black_kernel_mirror (optionType : OptionType) (F K s : R) :
  s <> 0 ->
  black_kernel optionType F K (- s)
  = typeSign optionType * (F - K) - black_kernel optionType F K s.
Proof.
  intros Hs. unfold black_kernel.
  assert (E1 : black_d1 F K (- s) = - black_d1 F K s).
  { unfold black_d1. rewrite half_literal. field. exact Hs. }
  rewrite E1.
  replace (typeSign optionType * - black_d1 F K s)
    with (- (typeSign optionType * black_d1 F K s)) by ring.
  replace (typeSign optionType * (- black_d1 F K s - - s))
    with (- (typeSign optionType * (black_d1 F K s - s))) by ring.
  rewrite !cnd_value_sym.
  destruct optionType; simpl; ring.
Qed.

(** ** Properties of [blackFormula] *)

Lemma blackFormula_general (optionType : OptionType)
    (strike forward stdDev discount displacement : R) :
  strike >= 0 -> forward > 0 -> stdDev > 0 -> discount > 0 ->
  displacement >= 0 -> strike + displacement <> 0 ->
  let F := forward + displacement in
  let K := strike + displacement in
  let d1 := ln (F / K) / stdDev + stdDev / 2 in
  let d2 := d1 - stdDev in
  let price := discount * typeSign optionType *
    (F * CND.value (typeSign optionType * d1)
     - K * CND.value (typeSign optionType * d2)) in
  blackFormula optionType strike forward stdDev discount displacement
    = Returns price /\ 0 <= price.
Proof.
  intros Hk Hf Hs Hd Hdisp HK F K d1 d2 price.
  assert (HFK : 0 < F / K).
  { apply Rdiv_lt_0_compat; unfold F, K; lra. }
  assert (Hprice : 0 <= price).
  { assert (P : 0 < black_kernel optionType F K stdDev)
      by (apply black_kernel_pos; unfold F, K; lra).
    unfold black_kernel, black_d1 in P.
    replace (ln (F / K) / stdDev + 0.5 * stdDev) with d1 in P by (unfold d1; lra).
    unfold price, d2. rewrite Rmult_assoc. apply Rmult_le_pos; lra. }
  split; [| exact Hprice].
  unfold F, K in HFK.
  unfold blackFormula. run_guards.
  - replace (ln ((forward + displacement) / (strike + displacement)) / stdDev
             + 0.5 * stdDev) with d1 by (unfold d1, F, K; lra).
    reflexivity.
  - exfalso.
    replace (ln ((forward + displacement) / (strike + displacement)) / stdDev
             + 0.5 * stdDev) with d1 in * by (unfold d1, F, K; lra).
    fold F K d2 price in n1. lra.
Qed.

(** The three branches of [blackFormula], with
    [F = forward + displacement] and [K = strike + displacement]. *)
Lemma blackFormula_branches (optionType : OptionType)
    (strike forward stdDev discount displacement : R) :
  strike >= 0 -> forward > 0 -> stdDev >= 0 -> discount > 0 ->
  displacement >= 0 ->
  let F := forward + displacement in
  let K := strike + displacement in
  let w := typeSign optionType in
  (stdDev = 0 ->
     blackFormula optionType strike forward stdDev discount displacement
     = Returns (Rmax ((F - K) * w) 0 * discount)) /\
  (K = 0 ->
     blackFormula optionType strike forward stdDev discount displacement
     = Returns (match optionType with Call => discount * F | Put => 0 end)) /\
  (stdDev <> 0 -> K <> 0 ->
     let d1 := ln (F / K) / stdDev + stdDev / 2 in
     let d2 := d1 - stdDev in
     blackFormula optionType strike forward stdDev discount displacement
     = Returns (discount * w * (F * CND.value (w * d1) - K * CND.value (w * d2)))).
Proof.
  intros Hk Hf Hs Hd Hdisp F K w.
  split; [| split].
  - intros ->. unfold blackFormula. run_guards. reflexivity.
  - intros HK. unfold K in HK. unfold blackFormula. run_guards.
    + f_equal.
      assert (E : forward + displacement - (strike + displacement) = F)
        by (unfold F; lra).
      rewrite E.
      destruct optionType; simpl.
      * rewrite Rmax_left by (unfold F; lra). lra.
      * rewrite Rmax_right by (unfold F; lra). lra.
    + destruct optionType; f_equal; unfold F; lra.
  - intros Hs0 HK0 d1 d2.
    apply (blackFormula_general optionType strike forward stdDev discount displacement);
      try assumption. lra.
Qed.

(** *** Binary64: the final check can fail on valid arguments *)












(** ** Properties of [bachelierBlackFormula] *)


(** What the general branch computes: the discount factor multiplies the
    density term only. *)
Lemma bachelierBlackFormula_general (optionType : OptionType)
    (strike forward stdDev discount : R) :
  stdDev > 0 -> discount > 0 ->
  let d := (forward - strike) * typeSign optionType in
  let h := d / stdDev in
  let result := discount * stdDev * CND.derivative h + d * CND.value h in
  bachelierBlackFormula optionType strike forward stdDev discount
  = if Rge_dec result 0 then Returns result else Throws EnsureFailed.
Proof.
  intros Hs Hd d h result. unfold result, h, d, bachelierBlackFormula.
  run_guards; reflexivity.
Qed.

(** C1. At [Call], strike 0, forward 1, stdDev 1, discount 1/2 the function
    returns [1/2 * phi 1 + Phi 1], which is not the value
    [1/2 * (phi 1 + Phi 1)] of the Bachelier formula. *)
Theorem bachelierBlackFormula_discount_slip :
  bachelierBlackFormula Call 0 1 1 (1 / 2)
  = Returns (1 / 2 * CND.derivative 1 + CND.value 1) /\
  1 / 2 * CND.derivative 1 + CND.value 1
  <> 1 / 2 * (1 * CND.derivative 1 + 1 * CND.value 1).
Proof.
  assert (Hphi := cnd_derivative_pos 1). assert (HPhi := cnd_value_pos 1).
  split; [| lra].
  rewrite bachelierBlackFormula_general by lra. simpl.
  replace ((1 - 0) * 1 / 1) with 1 by lra.
  replace ((1 - 0) * 1) with 1 by lra.
  destruct (Rge_dec (1 / 2 * 1 * CND.derivative 1 + 1 * CND.value 1) 0) as [H | H].
  - f_equal. lra.
  - exfalso. lra.
Qed.

Lemma exp_3_2_lt_10 : exp (3 / 2) < 10.
Proof.
  apply Rlt_le_trans with (exp 2).
  - apply exp_increasing. lra.
  - replace 2 with (1 + 1) by lra. rewrite exp_plus.
    assert (H := exp_le_3). assert (H0 := exp_pos 1). nra.
Qed.

Lemma cnd_value_lower_at_minus_1 : CND.derivative 2 < CND.value (- 1).
Proof.
  pose (k := fun x => CND.value x - CND.derivative 2 * x).
  assert (H : k (- 2) <= k (- 1)).
  { apply (deriv_nonneg_incr k (fun x => CND.derivative x - CND.derivative 2)
             (- 2) (- 1)); [| lra |].
    - intros c _. unfold k.
      apply derivable_pt_lim_eq with
        (f := (CND.value - mult_real_fct (CND.derivative 2) id)%F)
        (l := CND.derivative c - CND.derivative 2 * 1).
      + intros z. reflexivity.
      + lra.
      + apply derivable_pt_lim_minus.
        * apply cnd_value_derivable.
        * apply derivable_pt_lim_scal. apply derivable_pt_lim_id.
    - intros c Hc.
      rewrite (cnd_derivative_gauss c), (cnd_derivative_gauss 2).
      rewrite <- (gauss_even c).
      assert (gauss 2 <= gauss (- c)) by (apply gauss_decr; lra).
      assert (0 < CND.derivative 0) by apply cnd_derivative_pos.
      nra. }
  unfold k in H. generalize (cnd_value_pos (- 2)). lra.
Qed.

(** C3. At [Call], strike 2, forward 1, stdDev 1, discount 1/10, which pass
    the validation, the non-negativity guard of [bachelierBlackFormula]
    fires. *)
Theorem bachelierBlackFormula_guard_fires :
  bachelierBlackFormula Call 2 1 1 (1 / 10) = Throws EnsureFailed.
Proof.
  rewrite bachelierBlackFormula_general by lra. simpl.
  replace ((1 - 2) * 1 / 1) with (- 1) by lra.
  replace ((1 - 2) * 1) with (- 1) by lra.
  destruct (Rge_dec (1 / 10 * 1 * CND.derivative (- 1) + - 1 * CND.value (- 1)) 0)
    as [H | H]; [exfalso | reflexivity].
  assert (H1 := cnd_value_lower_at_minus_1).
  replace (CND.derivative (- 1)) with (CND.derivative 1) in H
    by (rewrite <- (cnd_derivative_even 1); f_equal; lra).
  rewrite (cnd_derivative_gauss 1) in H.
  rewrite (cnd_derivative_gauss 2) in H1.
  assert (H0 : 0 < CND.derivative 0) by apply cnd_derivative_pos.
  assert (G : gauss 1 < 10 * gauss 2).
  { unfold gauss.
    replace (- (1 * 1) / 2) with (- (1 / 2)) by lra.
    replace (- (2 * 2) / 2) with (- 2) by lra.
    assert (E := exp_3_2_lt_10).
    assert (P := exp_pos (- 2)).
    replace (exp (- (1 / 2))) with (exp (3 / 2) * exp (- 2)).
    - nra.
    - rewrite <- exp_plus. f_equal. lra. }
  nra.
Qed.

(** ** Properties of [blackFormulaImpliedStdDevApproximation] *)

Lemma sqrt_2PI_pos : 0 < sqrt (2 * M_PI).
Proof. apply sqrt_lt_R0. unfold M_PI. generalize PI_RGT_0. lra. Qed.

Lemma approximation_guarded (optionType : OptionType)
    (strike forward blackPrice discount displacement : R) :
  strike >= 0 -> forward > 0 -> blackPrice >= 0 -> discount > 0 ->
  displacement >= 0 ->
  let stdDev := approximationStdDev optionType strike forward blackPrice
                  discount displacement in
  blackFormulaImpliedStdDevApproximation optionType strike forward blackPrice
    discount displacement
  = if Rge_dec stdDev 0 then Returns stdDev else Throws EnsureFailed.
Proof.
  intros Hk Hf Hp Hd Hdisp stdDev.
  unfold stdDev, approximationStdDev, blackFormulaImpliedStdDevApproximation.
  unfold QL_REQUIRE, fdiv. cbn [bind].
  destruct (Rge_dec strike 0); [| exfalso; lra].
  destruct (Rgt_dec forward 0); [| exfalso; lra].
  destruct (Rge_dec blackPrice 0); [| exfalso; lra].
  destruct (Rgt_dec discount 0); [| exfalso; lra].
  destruct (Rge_dec displacement 0); [| exfalso; lra].
  cbn [bind].
  destruct (Req_dec_T discount 0); [exfalso; lra |].
  destruct (Req_dec_T (strike + displacement) (forward + displacement)).
  - cbn [bind].
    destruct (Req_dec_T (forward + displacement) 0); [exfalso; lra |].
    cbn [bind]. unfold QL_ENSURE.
    destruct (Rge_dec _ 0); reflexivity.
  - cbn [bind]. unfold std.sqrt.
    set (t2 := blackPrice / discount
               - typeSign optionType * (forward + displacement - (strike + displacement)) / 2).
    set (m2 := typeSign optionType * (forward + displacement - (strike + displacement)) *
               (typeSign optionType * (forward + displacement - (strike + displacement)))
               / M_PI).
    destruct (Rle_dec 0 (if Rlt_dec (t2 * t2 - m2) 0 then 0 else t2 * t2 - m2))
      as [Hc | Hc].
    + cbn [bind].
      destruct (Req_dec_T (forward + displacement + (strike + displacement)) 0);
        [exfalso; lra |].
      cbn [bind]. unfold QL_ENSURE.
      destruct (Rge_dec _ 0); reflexivity.
    + exfalso. apply Hc. destruct (Rlt_dec (t2 * t2 - m2) 0); lra.
Qed.

(** The sign of the approximation is the sign of
    [blackPrice / discount - typeSign * (forward - strike) / 2]. *)
Lemma approximationStdDev_sign (optionType : OptionType)
    (strike forward blackPrice discount displacement : R) :
  strike >= 0 -> forward > 0 -> blackPrice >= 0 -> discount > 0 ->
  displacement >= 0 ->
  let stdDev := approximationStdDev optionType strike forward blackPrice
                  discount displacement in
  (typeSign optionType * (forward - strike) / 2 <= blackPrice / discount ->
   0 <= stdDev) /\
  (blackPrice / discount < typeSign optionType * (forward - strike) / 2 ->
   stdDev < 0).
Proof.
  intros Hk Hf Hp Hd Hdisp stdDev.
  assert (Hs := sqrt_2PI_pos).
  assert (Hq : 0 <= blackPrice / discount).
  { apply Rmult_le_pos; [lra |]. left. apply Rinv_0_lt_compat. lra. }
  unfold stdDev, approximationStdDev.
  destruct (Req_dec_T (strike + displacement) (forward + displacement)) as [E | E].
  - assert (Es : strike = forward) by lra. subst strike.
    replace (typeSign optionType * (forward - forward) / 2) with 0 by lra.
    split; [| lra].
    intros _. apply Rmult_le_pos.
    + apply Rmult_le_pos; lra.
    + left. apply Rinv_0_lt_compat. lra.
  - replace (forward + displacement - (strike + displacement))
      with (forward - strike) by lra.
    set (m := typeSign optionType * (forward - strike)).
    set (t := blackPrice / discount - m / 2).
    set (c := if Rlt_dec (t * t - m * m / M_PI) 0 then 0 else t * t - m * m / M_PI).
    assert (Hm : m <> 0).
    { unfold m. destruct optionType; simpl; lra. }
    assert (Hmm : 0 < m * m / M_PI).
    { apply Rdiv_lt_0_compat; [nra | unfold M_PI; apply PI_RGT_0]. }
    assert (Hc0 : 0 <= c) by (unfold c; destruct (Rlt_dec _ 0); lra).
    assert (Hsum : 0 < / (forward + displacement + (strike + displacement))).
    { apply Rinv_0_lt_compat. lra. }
    split.
    + intros Hge. assert (Ht : 0 <= t) by (unfold t; lra).
      assert (0 <= sqrt c) by apply sqrt_pos.
      apply Rmult_le_pos; [| lra].
      apply Rmult_le_pos; lra.
    + intros Hlt. assert (Ht : t < 0) by (unfold t; lra).
      assert (Hlt2 : c < (- t) * (- t)).
      { unfold c. destruct (Rlt_dec _ 0); nra. }
      assert (Hrt : sqrt c < - t).
      { rewrite <- (sqrt_square (- t)) by lra.
        apply sqrt_lt_1_alt. lra. }
      assert (Hneg : (t + sqrt c) * sqrt (2 * M_PI) < 0) by nra.
      unfold Rdiv. nra.
Qed.





(** ** Properties of [blackFormulaImpliedStdDev] *)

Lemma Helper_make_objective (optionType : OptionType) (K F p : R) :
  K > 0 -> F > 0 -> p >= 0 ->
  Helper.make optionType K F p 0 = Returns (objective optionType K F p).
Proof.
  intros HK HF Hp.
  assert (Hr : 0 < (F + 0) / (K + 0)) by (apply Rdiv_lt_0_compat; lra).
  unfold Helper.make. run_guards. reflexivity.
Qed.

(** With valid arguments and a positive shifted strike the call reaches
    the solver, with the objective above and the approximation as seed. *)
Lemma impliedStdDev_reaches_solver (solver : Solver1D) (optionType : OptionType)
    (strike forward blackPrice discount accuracy displacement : R) :
  strike >= 0 -> forward > 0 -> blackPrice >= 0 -> discount > 0 ->
  displacement >= 0 -> strike + displacement > 0 ->
  let K := strike + displacement in
  let F := forward + displacement in
  let f := objective optionType K F (blackPrice / discount) in
  blackFormulaImpliedStdDev solver optionType strike forward blackPrice
    discount None accuracy displacement
  = (seed <- blackFormulaImpliedStdDevApproximation optionType K F blackPrice
               discount displacement ;;
     r <- solver 100%nat (Helper.call f) (Helper.derivative f) accuracy seed 0 3 ;;
     QL_ENSURE (Rge_dec r 0) ;;
     Returns r).
Proof.
  intros Hk Hf Hp Hd Hdisp HK K F f.
  unfold blackFormulaImpliedStdDev.
  unfold QL_REQUIRE at 1 2 3 4 5. cbn [bind].
  destruct (Rge_dec strike 0); [| exfalso; lra].
  destruct (Rgt_dec forward 0); [| exfalso; lra].
  destruct (Rge_dec blackPrice 0); [| exfalso; lra].
  destruct (Rgt_dec discount 0); [| exfalso; lra].
  destruct (Rge_dec displacement 0); [| exfalso; lra].
  cbn [bind]. fold K F.
  destruct (blackFormulaImpliedStdDevApproximation optionType K F blackPrice
              discount displacement) as [seed | e | ]; cbn [bind]; try reflexivity.
  unfold fdiv at 1.
  destruct (Req_dec_T discount 0); [exfalso; lra |].
  cbn [bind].
  assert (Hq : blackPrice / discount >= 0).
  { apply Rle_ge. apply Rmult_le_pos; [lra |]. left. apply Rinv_0_lt_compat. lra. }
  rewrite Helper_make_objective by (unfold K, F; lra).
  cbn [bind]. reflexivity.
Qed.

(** Without a caller-supplied guess the solver is seeded with the
    approximation evaluated on the strike and forward that were already
    shifted, together with the displacement. *)
Lemma impliedStdDev_seed (optionType : OptionType)
    (strike forward blackPrice discount accuracy displacement : R) :
  strike >= 0 -> forward > 0 -> blackPrice >= 0 -> discount > 0 ->
  displacement >= 0 -> strike + displacement > 0 ->
  blackFormulaImpliedStdDev echo_guess optionType strike forward blackPrice
    discount None accuracy displacement
  = blackFormulaImpliedStdDevApproximation optionType
      (strike + displacement) (forward + displacement) blackPrice discount
      displacement.
Proof.
  intros Hk Hf Hp Hd Hdisp HK.
  rewrite impliedStdDev_reaches_solver by assumption.
  cbv zeta. rewrite approximation_guarded by lra.
  destruct (Rge_dec _ 0) as [G | G]; cbn [bind]; [| reflexivity].
  unfold echo_guess, QL_ENSURE. cbn [bind].
  destruct (Rge_dec _ 0); [reflexivity | contradiction].
Qed.

Lemma approximation_at_the_money (optionType : OptionType)
    (strike blackPrice discount displacement : R) :
  strike > 0 -> blackPrice >= 0 -> discount > 0 -> displacement >= 0 ->
  blackFormulaImpliedStdDevApproximation optionType strike strike blackPrice
    discount displacement
  = Returns (blackPrice / discount * sqrt (2 * M_PI) / (strike + displacement)).
Proof.
  intros Hk Hp Hd Hdisp.
  rewrite approximation_guarded by lra.
  assert (E : approximationStdDev optionType strike strike blackPrice discount
                displacement
              = blackPrice / discount * sqrt (2 * M_PI) / (strike + displacement)).
  { unfold approximationStdDev.
    destruct (Req_dec_T (strike + displacement) (strike + displacement)) as [_ | N];
      [reflexivity | exfalso; apply N; reflexivity]. }
  rewrite E.
  assert (Hs := sqrt_2PI_pos).
  destruct (Rge_dec _ 0) as [G | G]; [reflexivity | exfalso].
  apply G. apply Rle_ge. apply Rmult_le_pos.
  - apply Rmult_le_pos; [| lra].
    apply Rmult_le_pos; [lra |]. left. apply Rinv_0_lt_compat. lra.
  - left. apply Rinv_0_lt_compat. lra.
Qed.

(** C4. For an at-the-money call with strike = forward = 1, price 1,
    discount 1 and displacement 1, the solver is seeded with
    [sqrt (2 pi) / 3], whereas the approximation on the caller's strike and
    forward is [sqrt (2 pi) / 2]: the seed has the displacement applied
    twice. *)
Theorem impliedStdDev_seed_shifted_twice :
  blackFormulaImpliedStdDev echo_guess Call 1 1 1 1 None (1 / 100000000) 1
  = Returns (sqrt (2 * M_PI) / 3) /\
  blackFormulaImpliedStdDevApproximation Call 1 1 1 1 1
  = Returns (sqrt (2 * M_PI) / 2) /\
  sqrt (2 * M_PI) / 3 <> sqrt (2 * M_PI) / 2.
Proof.
  assert (Hs := sqrt_2PI_pos).
  split; [| split].
  - rewrite impliedStdDev_seed by lra.
    replace (1 + 1) with 2 by lra.
    rewrite approximation_at_the_money by lra.
    f_equal. replace (2 + 1) with 3 by lra. lra.
  - rewrite approximation_at_the_money by lra.
    f_equal. replace (1 + 1) with 2 by lra. lra.
  - lra.
Qed.

(** ** The round trip through [blackFormulaImpliedStdDev] *)

(** X20. With a zero strike and no displacement the price of [blackFormula]
    is the same for every volatility, in the branch [stdDev == 0] as in
    the branch [strike == 0]: [discount * forward] for a call and 0 for a
    put.  The volatility cannot be read back from such a price, whatever
    the root-finder. *)
Theorem blackFormula_flat_at_zero_strike (optionType : OptionType)
    (forward discount : R) :
  forward > 0 -> discount > 0 ->
  exists price,
    price = match optionType with Call => discount * forward | Put => 0 end /\
    forall stdDev, stdDev >= 0 ->
      blackFormula optionType 0 forward stdDev discount 0 = Returns price.
Proof.
  intros Hf Hd. eexists. split; [reflexivity |].
  intros s Hs.
  destruct (blackFormula_branches optionType 0 forward s discount 0
              ltac:(lra) Hf Hs Hd ltac:(lra)) as (_ & E & _).
  rewrite E by lra. destruct optionType; f_equal; lra.
Qed.

Lemma blackFormula_flat_at_zero_strike_witness :
  exists price,
    price = 0.95 * 100 /\
    forall stdDev, stdDev >= 0 ->
      blackFormula Call 0 100 stdDev 0.95 0 = Returns price.
Proof.
  apply (blackFormula_flat_at_zero_strike Call 100 0.95); lra.
Defined.

(** ** Properties of [blackFormulaCashItmProbability] *)

Lemma cashItmProbability_zero_stdDev (optionType : OptionType)
    (strike forward displacement : R) :
  blackFormulaCashItmProbability optionType strike forward 0 displacement
  = Returns (if Rgt_dec (forward * typeSign optionType) (strike * typeSign optionType)
             then 1 else 0).
Proof.
  unfold blackFormulaCashItmProbability.
  destruct (Req_dec_T 0 0) as [_ | N]; [reflexivity | exfalso; apply N; reflexivity].
Qed.

(** The test on the strike is made before any shift. *)
Lemma cashItmProbability_zero_strike (optionType : OptionType)
    (forward stdDev displacement : R) :
  stdDev <> 0 ->
  blackFormulaCashItmProbability optionType 0 forward stdDev displacement
  = Returns (match optionType with Call => 1 | Put => 0 end).
Proof.
  intros Hs. unfold blackFormulaCashItmProbability.
  destruct (Req_dec_T stdDev 0); [contradiction |].
  destruct (Req_dec_T 0 0) as [_ | N]; [reflexivity | exfalso; apply N; reflexivity].
Qed.


(** C5. For a call with strike 0, forward 1, stdDev 1 and displacement 1
    the shifted strike is 1, not 0, and the function still returns 1,
    whereas [Phi (typeSign * d2)] on the shifted forward and strike is
    smaller than 1. *)
Theorem cashItmProbability_unshifted_strike_test :
  blackFormulaCashItmProbability Call 0 1 1 1 = Returns 1 /\
  0 + 1 <> 0 /\
  CND.value (typeSign Call * (ln ((1 + 1) / (0 + 1)) / 1 + 1 / 2 - 1)) < 1.
Proof.
  split; [| split].
  - apply (cashItmProbability_zero_strike Call 1 1 1). lra.
  - lra.
  - apply cnd_value_lt_1.
Qed.

(** ** Properties of [blackFormulaStdDevDerivative] *)


(** C8. At strike 100, forward 100, stdDev 0, discount 1, displacement 0,
    which pass the validation, the function forms the quotient
    [log (100 / 100) / 0]: it returns no real number. *)
Theorem stdDevDerivative_zero_stdDev :
  blackFormulaStdDevDerivative 100 100 0 1 0 = NonFinite.
Proof.
  unfold blackFormulaStdDevDerivative.
  unfold QL_REQUIRE. 
  destruct (Rge_dec 100 0); [| exfalso; lra].
  destruct (Rgt_dec 100 0); [| exfalso; lra].
  destruct (Rge_dec 0 0); [| exfalso; lra].
  destruct (Rgt_dec 1 0); [| exfalso; lra].
  cbn [bind]. unfold fdiv at 1.
  destruct (Req_dec_T (100 + 0) 0); [exfalso; lra |].
  cbn [bind]. unfold std.log.
  destruct (Rlt_dec 0 ((100 + 0) / (100 + 0))); [| exfalso; lra].
  cbn [bind]. unfold fdiv.
  destruct (Req_dec_T 0 0) as [_ | N]; [reflexivity | exfalso; apply N; reflexivity].
Qed.

(** ** Properties of the accessors of [PiecewiseYieldCurve] *)

Section PiecewiseYieldCurveAccessors.

Variable RateHelper : Type.
Variable bootstrap_calculate :
  PiecewiseYieldCurve RateHelper -> outcome (PiecewiseYieldCurve RateHelper).
Variable base_curve_nodes : PiecewiseYieldCurve RateHelper -> list (Date * R).
Variable base_curve_discountImpl :
  PiecewiseYieldCurve RateHelper -> Time -> DiscountFactor.

Lemma seq_calculate_read_never_stale {A : Type} (e : Event)
    (f : PiecewiseYieldCurve RateHelper -> A) :
  never_stale bootstrap_calculate
    (seq (calculate bootstrap_calculate) (fun _ => read e f)) e
    (fun c => Returns (f c)).
Proof.
  intros c. unfold up_to_date, seq, calculate, read, performCalculations.
  cbn [fst snd].
  destruct (calculated_ c); [reflexivity |].
  destruct (bootstrap_calculate c); reflexivity.
Qed.

(** C9. Each of [maxDate], [times], [dates], [data], [nodes] and
    [discountImpl] calls [calculate] before it touches the curve.  On a
    dirty curve what it returns is read from the curve the bootstrap has
    just written, never from the vectors the curve held before, and when
    the bootstrap fails the accessor fails and reads nothing; on a clean
    curve it reads the curve as it is.  ([maxDate] has no value to return
    when the up-to-date vector of dates is empty.) *)
Theorem accessors_calculate_first :
  never_stale bootstrap_calculate (maxDate bootstrap_calculate)
    ReadDates dates_back /\
  never_stale bootstrap_calculate (times bootstrap_calculate)
    ReadTimes (fun c => Returns (times_ c)) /\
  never_stale bootstrap_calculate (dates bootstrap_calculate)
    ReadDates (fun c => Returns (dates_ c)) /\
  never_stale bootstrap_calculate (data bootstrap_calculate)
    ReadData (fun c => Returns (data_ c)) /\
  never_stale bootstrap_calculate (nodes bootstrap_calculate base_curve_nodes)
    CallBaseNodes (fun c => Returns (base_curve_nodes c)) /\
  (forall t,
     never_stale bootstrap_calculate
       (discountImpl bootstrap_calculate base_curve_discountImpl t)
       CallBaseDiscount (fun c => Returns (base_curve_discountImpl c t))).
Proof.
  split.
  - intros c.
    unfold up_to_date, maxDate, seq, calculate, read_partial,
      performCalculations.
    cbn [fst snd].
    destruct (calculated_ c); [reflexivity |].
    destruct (bootstrap_calculate c); reflexivity.
  - repeat split; try intros t; apply seq_calculate_read_never_stale.
Qed.

End PiecewiseYieldCurveAccessors.


(** * Part 3: further properties of the code *)

(** ** [blackFormula]: the branches in closed form *)

(** The general branch in terms of [black_kernel]. *)
Lemma blackFormula_kernel (optionType : OptionType)
    (strike forward stdDev discount displacement : R) :
  strike >= 0 -> forward > 0 -> stdDev > 0 -> discount > 0 ->
  displacement >= 0 -> strike + displacement <> 0 ->
  blackFormula optionType strike forward stdDev discount displacement
  = Returns (discount * black_kernel optionType (forward + displacement)
                          (strike + displacement) stdDev).
Proof.
  intros Hk Hf Hs Hd Hdisp HK.
  destruct (blackFormula_general optionType strike forward stdDev discount
              displacement Hk Hf Hs Hd Hdisp HK) as [E _].
  cbv zeta in E. rewrite E. f_equal.
  unfold black_kernel, black_d1.
  replace (ln ((forward + displacement) / (strike + displacement)) / stdDev
           + 0.5 * stdDev)
    with (ln ((forward + displacement) / (strike + displacement)) / stdDev
          + stdDev / 2) by lra.
  ring.
Qed.

Lemma blackFormula_zero_stdDev (optionType : OptionType)
    (strike forward discount displacement : R) :
  strike >= 0 -> forward > 0 -> discount > 0 -> displacement >= 0 ->
  blackFormula optionType strike forward 0 discount displacement
  = Returns (Rmax ((forward + displacement - (strike + displacement))
                   * typeSign optionType) 0 * discount).
Proof.
  intros Hk Hf Hd Hdisp.
  destruct (blackFormula_branches optionType strike forward 0 discount
              displacement Hk Hf ltac:(lra) Hd Hdisp) as (E & _).
  apply E. reflexivity.
Qed.

(** ** [blackFormulaStdDevDerivative] is the derivative of the Black value *)

Lemma black_kernel_derivable (optionType : OptionType) (F K s : R) :
  0 < F -> 0 < K -> 0 < s ->
  derivable_pt_lim (black_kernel optionType F K) s
    (F * CND.derivative (black_d1 F K s)).
Proof.
  intros HF HK Hs.
  assert (C := black_call_derivable F K HF HK s Hs).
  destruct optionType; [exact C |].
  apply derivable_pt_lim_eq with
    (f := (black_kernel Call F K - fct_cte (F - K))%F)
    (l := F * CND.derivative (black_d1 F K s) - 0).
  - intros z. unfold minus_fct, fct_cte.
    generalize (black_parity F K z). lra.
  - lra.
  - apply derivable_pt_lim_minus; [exact C | apply derivable_pt_lim_const].
Qed.



(** ** Symmetries of [blackFormula] *)

(** X5. A call struck at [strike] on [forward] is worth what a put struck
    at [forward] on [strike] is worth. *)
Theorem blackFormula_call_put_duality
    (strike forward stdDev discount displacement : R) :
  strike > 0 -> forward > 0 -> stdDev >= 0 -> discount > 0 ->
  displacement >= 0 ->
  blackFormula Call strike forward stdDev discount displacement
  = blackFormula Put forward strike stdDev discount displacement.
Proof.
  intros Hk Hf Hs Hd Hdisp.
  destruct (Req_dec_T stdDev 0) as [-> | Hs0].
  - rewrite !blackFormula_zero_stdDev by (try assumption; lra).
    f_equal. f_equal. f_equal. simpl. lra.
  - rewrite !blackFormula_kernel by (try assumption; lra).
    f_equal. f_equal.
    set (F := forward + displacement). set (K := strike + displacement).
    assert (HF : 0 < F) by (unfold F; lra).
    assert (HK' : 0 < K) by (unfold K; lra).
    assert (El : ln (K / F) = - ln (F / K)).
    { unfold Rdiv. rewrite !ln_mult, !ln_Rinv; try lra;
        apply Rinv_0_lt_compat; lra. }
    unfold black_kernel, black_d1. simpl. rewrite El.
    rewrite half_literal.
    replace (1 * (ln (F / K) / stdDev + / 2 * stdDev))
      with (ln (F / K) / stdDev + / 2 * stdDev) by lra.
    replace (1 * (ln (F / K) / stdDev + / 2 * stdDev - stdDev))
      with (ln (F / K) / stdDev + / 2 * stdDev - stdDev) by lra.
    replace (-1 * (- ln (F / K) / stdDev + / 2 * stdDev))
      with (ln (F / K) / stdDev + / 2 * stdDev - stdDev)
      by (field; exact Hs0).
    replace (-1 * (- ln (F / K) / stdDev + / 2 * stdDev - stdDev))
      with (ln (F / K) / stdDev + / 2 * stdDev)
      by (field; exact Hs0).
    ring.
Qed.

Lemma blackFormula_call_put_duality_witness :
  blackFormula Call 90 100 0.2 0.95 0 = blackFormula Put 100 90 0.2 0.95 0.
Proof.
  apply (blackFormula_call_put_duality 90 100 0.2 0.95 0); lra.
Defined.

(** ** [BlackImpliedStdDevHelper] *)

Lemma Helper_make_value (optionType : OptionType)
    (strike forward undiscountedBlackPrice displacement : R) :
  strike >= 0 -> forward > 0 -> undiscountedBlackPrice >= 0 ->
  displacement >= 0 -> strike + displacement > 0 ->
  Helper.make optionType strike forward undiscountedBlackPrice displacement
  = Returns
      {| halfOptionType_ := 0.5 * typeSign optionType;
         signedStrike_ := typeSign optionType * (strike + displacement);
         signedForward_ := typeSign optionType * (forward + displacement);
         undiscountedBlackPrice_ := undiscountedBlackPrice;
         signedMoneyness_ :=
           typeSign optionType
           * ln ((forward + displacement) / (strike + displacement)) |}.
Proof.
  intros Hk Hf Hp Hdisp HK.
  assert (Hr : 0 < (forward + displacement) / (strike + displacement))
    by (apply Rdiv_lt_0_compat; lra).
  unfold Helper.make. run_guards. reflexivity.
Qed.

Lemma Helper_call_value (optionType : OptionType) (K F p x : R)
    (f : BlackImpliedStdDevHelper) :
  halfOptionType_ f = 0.5 * typeSign optionType ->
  signedStrike_ f = typeSign optionType * K ->
  signedForward_ f = typeSign optionType * F ->
  undiscountedBlackPrice_ f = p ->
  signedMoneyness_ f = typeSign optionType * ln (F / K) ->
  x <> 0 ->
  Helper.call f x = Returns (Rmax 0 (black_kernel optionType F K x) - p).
Proof.
  intros E1 E2 E3 E4 E5 Hx. unfold Helper.call, fdiv, std.max.
  destruct (Req_dec_T x 0); [contradiction |].
  cbn [bind]. rewrite E1, E2, E3, E4, E5. f_equal. f_equal. f_equal.
  unfold black_kernel, black_d1.
  replace (typeSign optionType * ln (F / K) / x + 0.5 * typeSign optionType * x)
    with (typeSign optionType * (ln (F / K) / x + 0.5 * x)) by lra.
  replace (typeSign optionType * ln (F / K) / x - 0.5 * typeSign optionType * x)
    with (typeSign optionType * (ln (F / K) / x + 0.5 * x - x)) by lra.
  ring.
Qed.

(** X9. For a helper built on valid arguments with a positive shifted
    strike, and [stdDev > 0], the value [v] that [derivative] returns is
    the slope of [operator()] for a call and its opposite for a put: the
    derivative of [operator()] in [stdDev] is [typeSign * v], which is
    not negative, so [v] itself is not positive for a put. *)
Theorem Helper_derivative_sign (optionType : OptionType)
    (strike forward undiscountedBlackPrice displacement stdDev : R) :
  strike >= 0 -> forward > 0 -> undiscountedBlackPrice >= 0 ->
  displacement >= 0 -> strike + displacement > 0 -> stdDev > 0 ->
  exists f v,
    Helper.make optionType strike forward undiscountedBlackPrice displacement
    = Returns f /\
    Helper.derivative f stdDev = Returns v /\
    0 <= typeSign optionType * v /\
    derivable_pt_lim (fun x => value_of (Helper.call f x)) stdDev
      (typeSign optionType * v).
Proof.
  intros Hk Hf Hp Hdisp HK Hs.
  rewrite Helper_make_value by assumption.
  set (F := forward + displacement). set (K := strike + displacement).
  assert (HF : 0 < F) by (unfold F; lra).
  assert (HK' : 0 < K) by (unfold K; lra).
  eexists. eexists. split; [reflexivity |].
  assert (Ev : typeSign optionType
               * (typeSign optionType * F
                  * CND.derivative (typeSign optionType * ln (F / K) / stdDev
                                    + 0.5 * typeSign optionType * stdDev))
               = F * CND.derivative (black_d1 F K stdDev)).
  { unfold black_d1. destruct optionType; simpl.
    - replace (1 * ln (F / K) / stdDev + 0.5 * 1 * stdDev)
        with (ln (F / K) / stdDev + 0.5 * stdDev) by lra.
      ring.
    - replace (-1 * ln (F / K) / stdDev + 0.5 * -1 * stdDev)
        with (- (ln (F / K) / stdDev + 0.5 * stdDev)) by lra.
      rewrite cnd_derivative_even. ring. }
  split.
  - unfold Helper.derivative, fdiv. simpl.
    destruct (Req_dec_T stdDev 0); [exfalso; lra |].
    cbn [bind]. reflexivity.
  - rewrite Ev. split.
    + left. apply Rmult_lt_0_compat; [exact HF | apply cnd_derivative_pos].
    + apply derivable_pt_lim_locally_ext with
        (f := (black_kernel optionType F K - fct_cte undiscountedBlackPrice)%F)
        (a := stdDev / 2) (b := stdDev + 1).
      * lra.
      * intros z Hz. unfold minus_fct, fct_cte.
        rewrite (Helper_call_value optionType K F undiscountedBlackPrice z)
          by (try reflexivity; lra).
        assert (B := black_kernel_pos optionType F K z HF HK' ltac:(lra)).
        simpl. rewrite Rmax_right by lra. reflexivity.
      * replace (F * CND.derivative (black_d1 F K stdDev))
          with (F * CND.derivative (black_d1 F K stdDev) - 0) by lra.
        apply derivable_pt_lim_minus; [| apply derivable_pt_lim_const].
        apply black_kernel_derivable; assumption.
Qed.

Lemma Helper_derivative_sign_witness :
  exists f v,
    Helper.make Put 100 100 8 0 = Returns f /\
    Helper.derivative f 0.2 = Returns v /\
    0 <= typeSign Put * v /\
    derivable_pt_lim (fun x => value_of (Helper.call f x)) 0.2
      (typeSign Put * v).
Proof.
  apply (Helper_derivative_sign Put 100 100 8 0 0.2); lra.
Defined.

(** ** [blackFormulaCashItmProbability]: call and put together *)



(** X11. With [stdDev = 0] the function returns 0 or 1 whatever the other
    arguments are, and does not read the displacement; the call and the
    put add up to 1 unless forward and strike are equal, where both are 0. *)
Theorem cashItmProbability_zero_stdDev_pair (strike forward displacement : R) :
  exists c p,
    blackFormulaCashItmProbability Call strike forward 0 displacement
    = Returns c /\
    blackFormulaCashItmProbability Put strike forward 0 displacement
    = Returns p /\
    (c = 0 \/ c = 1) /\ (p = 0 \/ p = 1) /\
    (forward <> strike -> c + p = 1) /\
    (forward = strike -> c = 0 /\ p = 0).
Proof.
  rewrite !cashItmProbability_zero_stdDev. simpl.
  eexists. eexists. split; [reflexivity |]. split; [reflexivity |].
  destruct (Rgt_dec (forward * 1) (strike * 1));
    destruct (Rgt_dec (forward * -1) (strike * -1));
    repeat split; try (intros; lra); auto.
Qed.

(** ** [bachelierBlackFormula] as it is coded *)






(** ** [blackFormulaImpliedStdDev]: guards and the caller's guess *)

(** With valid arguments, a guess of the caller is checked and handed to
    the solver as it is; the approximation is not evaluated. *)
Lemma impliedStdDev_with_guess (solver : Solver1D) (optionType : OptionType)
    (strike forward blackPrice discount guess accuracy displacement : R) :
  strike >= 0 -> forward > 0 -> blackPrice >= 0 -> discount > 0 ->
  displacement >= 0 ->
  (guess < 0 ->
   blackFormulaImpliedStdDev solver optionType strike forward blackPrice
     discount (Some guess) accuracy displacement = Throws RequireFailed) /\
  (guess >= 0 -> strike + displacement > 0 ->
   let f := objective optionType (strike + displacement)
              (forward + displacement) (blackPrice / discount) in
   blackFormulaImpliedStdDev solver optionType strike forward blackPrice
     discount (Some guess) accuracy displacement
   = (r <- solver 100%nat (Helper.call f) (Helper.derivative f) accuracy
             guess 0 3 ;;
      QL_ENSURE (Rge_dec r 0) ;;
      Returns r)).
Proof.
  intros Hk Hf Hp Hd Hdisp.
  unfold blackFormulaImpliedStdDev.
  unfold QL_REQUIRE at 1 2 3 4 5. cbn [bind].
  destruct (Rge_dec strike 0); [| exfalso; lra].
  destruct (Rgt_dec forward 0); [| exfalso; lra].
  destruct (Rge_dec blackPrice 0); [| exfalso; lra].
  destruct (Rgt_dec discount 0); [| exfalso; lra].
  destruct (Rge_dec displacement 0); [| exfalso; lra].
  cbn [bind]. split.
  - intros Hg. unfold QL_REQUIRE.
    destruct (Rge_dec guess 0); [exfalso; lra | reflexivity].
  - intros Hg HK. unfold QL_REQUIRE.
    destruct (Rge_dec guess 0); [| exfalso; lra].
    cbn [bind]. unfold fdiv at 1.
    destruct (Req_dec_T discount 0); [exfalso; lra |].
    cbn [bind].
    assert (Hq : blackPrice / discount >= 0).
    { apply Rle_ge. apply Rmult_le_pos; [lra |].
      left. apply Rinv_0_lt_compat. lra. }
    rewrite Helper_make_objective by lra.
    cbn [bind]. reflexivity.
Qed.

(** X18. With valid arguments, a negative guess of the caller is rejected
    before the solver runs; a non-negative one is handed to the solver
    unchanged, with the bracket [0, 3] and the budget of 100 evaluations,
    and the approximation is not evaluated: the call goes through also
    where the approximation would throw. *)
Theorem impliedStdDev_supplied_guess (solver : Solver1D)
    (optionType : OptionType)
    (strike forward blackPrice discount guess accuracy displacement : R) :
  strike >= 0 -> forward > 0 -> blackPrice >= 0 -> discount > 0 ->
  displacement >= 0 -> strike + displacement > 0 ->
  let f := objective optionType (strike + displacement)
             (forward + displacement) (blackPrice / discount) in
  blackFormulaImpliedStdDev solver optionType strike forward blackPrice
    discount (Some guess) accuracy displacement
  = if Rge_dec guess 0 then
      r <- solver 100%nat (Helper.call f) (Helper.derivative f) accuracy
             guess 0 3 ;;
      QL_ENSURE (Rge_dec r 0) ;;
      Returns r
    else Throws RequireFailed.
Proof.
  intros Hk Hf Hp Hd Hdisp HK f.
  destruct (impliedStdDev_with_guess solver optionType strike forward
              blackPrice discount guess accuracy displacement
              Hk Hf Hp Hd Hdisp) as [Hneg Hpos].
  destruct (Rge_dec guess 0) as [Hg | Hg].
  - exact (Hpos Hg HK).
  - apply Hneg. lra.
Qed.

Lemma impliedStdDev_supplied_guess_witness :
  blackFormulaImpliedStdDevApproximation Call (1 + 0) (2 + 0) 0 1 0
  = Throws EnsureFailed /\
  blackFormulaImpliedStdDev echo_guess Call 1 2 0 1 (Some 0.5) 0.0001 0
  = Returns 0.5.
Proof.
  split.
  - replace (1 + 0) with 1 by lra. replace (2 + 0) with 2 by lra.
    rewrite approximation_guarded by lra. cbv zeta.
    destruct (approximationStdDev_sign Call 1 2 0 1 0
                ltac:(lra) ltac:(lra) ltac:(lra) ltac:(lra) ltac:(lra))
      as [_ Hneg].
    simpl in Hneg.
    destruct (Rge_dec _ 0) as [G | G]; [exfalso | reflexivity].
    assert (approximationStdDev Call 1 2 0 1 0 < 0) by (apply Hneg; lra).
    lra.
  - rewrite (impliedStdDev_supplied_guess echo_guess Call 1 2 0 1 0.5 0.0001 0)
      by lra.
    destruct (Rge_dec 0.5 0); [| exfalso; lra].
    unfold echo_guess, QL_ENSURE. cbn [bind].
    destruct (Rge_dec 0.5 0); [reflexivity | exfalso; lra].
Defined.

